(** * NitroFS: the name-table tree builder, path resolver and read service

    A shallow embedding of [nitrofs.c].  The mapped image is a list of
    bytes, every table-derived offset is a byte position in it, and the
    fixed-width C integers are [Z] with their wrap-around written out.
    Reading outside the mapping is undefined behaviour of the C program
    and is reported as [Fault]. *)

From Stdlib Require Import ZArith List Bool Lia.
From Stdlib.Strings Require Import Byte.
From Stdlib.Strings Require String.
Import String.StringSyntax.
Delimit Scope string_scope with string.
Import ListNotations.
Local Open Scope Z_scope.

(** ** Outcomes of a run *)

Inductive outcome (A : Type) : Type :=
| Ok (a : A)      (* normal completion *)
| Fail            (* the function returned -1 *)
| Fault           (* a read outside the mapping: undefined behaviour *)
| OutOfFuel.      (* the bounded unrolling was too short *)

Arguments Ok {A} a.
Arguments Fail {A}.
Arguments Fault {A}.
Arguments OutOfFuel {A}.

(** ** Bytes and the mapping *)

Definition byte_val (b : byte) : Z := Z.of_N (Byte.to_N b).

Definition u8 (z : Z) : byte :=
  match Byte.of_N (Z.to_N (z mod 256)) with
  | Some b => b
  | None => x00
  end.

(** A little-endian unsigned integer, as [memcpy] into a [uintN_t] reads
    it on the little-endian hosts the program is run on. *)
Fixpoint le_uint (bs : list byte) : Z :=
  match bs with
  | [] => 0
  | b :: rest => byte_val b + 256 * le_uint rest
  end.

Fixpoint le_bytes (n : nat) (z : Z) : list byte :=
  match n with
  | O => []
  | S n' => u8 z :: le_bytes n' (z / 256)
  end.

(** [*p] for the byte at position [a]. *)
Definition load8 (m : list byte) (a : Z) : option Z :=
  if a <? 0 then None
  else option_map byte_val (nth_error m (Z.to_nat a)).

(** The [n] bytes that [memcpy(dst, m + a, n)] reads. *)
Definition load_bytes (m : list byte) (a n : Z) : option (list byte) :=
  if (0 <=? a) && (0 <=? n) && (a + n <=? Z.of_nat (length m))
  then Some (firstn (Z.to_nat n) (skipn (Z.to_nat a) m))
  else None.

Definition load16 (m : list byte) (a : Z) : option Z :=
  option_map le_uint (load_bytes m a 2).

Definition load32 (m : list byte) (a : Z) : option Z :=
  option_map le_uint (load_bytes m a 4).

(** ** Constants *)

Definition FNT_OFFSET : Z := 0x40.
Definition FNT_LENGTH : Z := 0x44.
Definition FAT_OFFSET : Z := 0x48.
Definition FAT_LENGTH : Z := 0x4C.
Definition NITRO_ROOT : Z := 0xF000.
Definition NITRO_DIRMASK : Z := 0x0FFF.
Definition EINVAL : Z := 22.

Definition uint16_max : Z := 2 ^ 16.
Definition uint32_max : Z := 2 ^ 32.
Definition uint64_max : Z := 2 ^ 64.

(** ** Data model *)

Inductive nitro_type_t : Type := NITRO_FILE_TYPE | NITRO_DIR_TYPE.

(** [nitrofs_entry_t].  The [children]/[next] chain of the C struct is the
    list [children]; the [parent] pointer of an entry is the node that
    holds it in its list (see [handle] below).  [name] holds the bytes
    copied from the image; the C array has one more byte, a NUL. *)
#[warnings="-register-all"]
Inductive nitrofs_entry_t : Type :=
  mk_entry {
    type : nitro_type_t;
    size : Z;
    links : Z;
    id : Z;
    name : list byte;
    children : list nitrofs_entry_t
  }.

(** [fnt_main_entry_t] *)
Record fnt_main_entry_t : Type :=
  mk_fnt_main { offset : Z; next_id : Z; parent_id : Z }.

(** [fat_entry_t] *)
Record fat_entry_t : Type :=
  mk_fat { start_offset : Z; end_offset : Z }.

(** The file-scope variables set up by [main]. *)
Record nds_t : Type :=
  mk_nds {
    nds_mapping : list byte;
    fnt_offset : Z;
    fnt_length : Z;
    fat_offset : Z;
    fat_length : Z
  }.

(** A pointer to an entry of the finished tree: the entry and the chain of
    its [parent] pointers, nearest first.  The root has no ancestors and
    is its own parent ([nitro_init_dir(root, root, NITRO_ROOT)]). *)
Record handle : Type :=
  mk_handle { self : nitrofs_entry_t; ancestors : list nitrofs_entry_t }.

Definition parent_of (h : handle) : handle :=
  match ancestors h with
  | [] => h
  | p :: rest => mk_handle p rest
  end.

Definition child_handle (dir : handle) (e : nitrofs_entry_t) : handle :=
  mk_handle e (self dir :: ancestors dir).

(** ** Table records *)

(** [memcpy(&entry, src, sizeof(entry))] for a main name-table record. *)
Definition load_fnt_main (m : list byte) (a : Z) : option fnt_main_entry_t :=
  match load_bytes m a 8 with
  | None => None
  | Some bs =>
      Some (mk_fnt_main (le_uint (firstn 4 bs))
                        (le_uint (firstn 2 (skipn 4 bs)))
                        (le_uint (firstn 2 (skipn 6 bs))))
  end.

(** [memcpy(&fat_entry, src, sizeof(fat_entry))]. *)
Definition load_fat (m : list byte) (a : Z) : option fat_entry_t :=
  match load_bytes m a 8 with
  | None => None
  | Some bs =>
      Some (mk_fat (le_uint (firstn 4 bs)) (le_uint (firstn 4 (skipn 4 bs))))
  end.

(** ** Tree builder *)

(** The block returned by [malloc], with the name already copied in. *)
Definition new_entry (nm : list byte) : nitrofs_entry_t :=
  mk_entry NITRO_FILE_TYPE 0 0 0 nm [].

Definition nitro_init_dir (dir : nitrofs_entry_t) (id0 : Z) : nitrofs_entry_t :=
  mk_entry NITRO_DIR_TYPE 0 2 id0 (name dir) [].

Definition nitro_init_file (file : nitrofs_entry_t) (fat_entry : fat_entry_t)
    (id0 : Z) : nitrofs_entry_t :=
  mk_entry NITRO_FILE_TYPE
           ((end_offset fat_entry - start_offset fat_entry) mod uint32_max)
           2 id0 (name file) [].

(** The update of [last]: the new entry joins the end of the directory's
    chain of children. *)
Definition append_child (dir next : nitrofs_entry_t) : nitrofs_entry_t :=
  mk_entry (type dir) (size dir) (links dir) (id dir) (name dir)
           (children dir ++ [next]).

Definition add_stats (dir : nitrofs_entry_t) (dlinks dsize : Z) : nitrofs_entry_t :=
  mk_entry (type dir) ((size dir + dsize) mod uint32_max)
           ((links dir + dlinks) mod uint32_max) (id dir) (name dir)
           (children dir).

Section Build.

(** [malloc_ok k] tells whether the [k]-th call of [malloc] (from 0)
    returns a block. *)
Variable malloc_ok : nat -> bool.
Variable g : nds_t.

(** The [while] loop of [nitro_build_subdir], entered with [p] at
    position [p] of the mapping, the running file ID [nid] and the
    directory [dir] filled so far; [k] counts the calls of [malloc].
    One unit of fuel pays for one subentry.  The C code links an entry
    into its parent's chain as soon as it is allocated and fills it
    afterwards; here it is appended once filled, which gives the same
    finished tree, the chain being read only after the build. *)
Fixpoint nitro_build_subdir_from (fuel : nat) (k : nat) (p : Z) (nid : Z)
    (dir : nitrofs_entry_t) : outcome (nitrofs_entry_t * nat) :=
  match fuel with
  | O => OutOfFuel
  | S fuel' =>
      match load8 (nds_mapping g) p with
      | None => Fault
      | Some b =>
          if b =? 0 then Ok (dir, k)
          else
            let len := Z.land b 0x7F in
            if negb (malloc_ok k) then Fail
            else
              match load_bytes (nds_mapping g) (p + 1) len with
              | None => Fault
              | Some nm =>
                  let next := new_entry nm in
                  if negb (Z.land b 0x80 =? 0) then
                    match load16 (nds_mapping g) (p + len + 1) with
                    | None => Fault
                    | Some id0 =>
                        let next := nitro_init_dir next id0 in
                        let dir := add_stats dir 1 (len + 3) in
                        match load_fnt_main (nds_mapping g)
                                (fnt_offset g + Z.land id0 NITRO_DIRMASK * 8) with
                        | None => Fault
                        | Some entry =>
                            match nitro_build_subdir_from fuel' (S k)
                                    (fnt_offset g + offset entry)
                                    (next_id entry) next with
                            | Ok (next', k') =>
                                nitro_build_subdir_from fuel' k'
                                  (p + 2 + (len + 1)) nid
                                  (append_child dir next')
                            | Fail => Fail
                            | Fault => Fault
                            | OutOfFuel => OutOfFuel
                            end
                        end
                    end
                  else
                    match load_fat (nds_mapping g) (fat_offset g + nid * 8) with
                    | None => Fault
                    | Some fat_entry =>
                        let next := nitro_init_file next fat_entry nid in
                        let dir := add_stats dir 0 (len + 1) in
                        nitro_build_subdir_from fuel' (S k)
                          (p + (len + 1)) ((nid + 1) mod uint16_max)
                          (append_child dir next)
                    end
              end
      end
  end.

Definition nitro_build_subdir (fuel : nat) (k : nat) (dir : nitrofs_entry_t)
    (entry : fnt_main_entry_t) : outcome (nitrofs_entry_t * nat) :=
  nitro_build_subdir_from fuel k (fnt_offset g + offset entry)
    (next_id entry) dir.

(** [nitro_build_tree]: on failure the partial tree is destroyed and
    only -1 is reported.  The root is allocated without room for a name,
    and its name is never read. *)
Definition nitro_build_tree (fuel : nat) : outcome nitrofs_entry_t :=
  if negb (malloc_ok 0) then Fail
  else
    let root := nitro_init_dir (new_entry []) NITRO_ROOT in
    match load_fnt_main (nds_mapping g) (fnt_offset g) with
    | None => Fault
    | Some entry =>
        match nitro_build_subdir fuel 1 root entry with
        | Ok (root', _) => Ok root'
        | Fail => Fail
        | Fault => Fault
        | OutOfFuel => OutOfFuel
        end
    end.

End Build.

(** The part of [main] that reads the four header fields. *)
Definition nds_open (image : list byte) : option nds_t :=
  match load32 image FNT_OFFSET, load32 image FNT_LENGTH,
        load32 image FAT_OFFSET, load32 image FAT_LENGTH with
  | Some fo, Some fl, Some ao, Some al => Some (mk_nds image fo fl ao al)
  | _, _, _, _ => None
  end.

(** [main] up to the call of [fuse_main]: the globals and the tree. *)
Definition nitro_mount (malloc_ok : nat -> bool) (fuel : nat)
    (image : list byte) : outcome (nds_t * nitrofs_entry_t) :=
  match nds_open image with
  | None => Fault
  | Some g =>
      match nitro_build_tree malloc_ok g fuel with
      | Ok root => Ok (g, root)
      | Fail => Fail
      | Fault => Fault
      | OutOfFuel => OutOfFuel
      end
  end.

Definition malloc_always : nat -> bool := fun _ => true.

(** ** C strings *)

Definition slash : byte := "/"%byte.

(** The string a [char*] to the buffer [buf ++ [NUL]] denotes: the bytes
    before the first NUL. *)
Fixpoint c_str (buf : list byte) : list byte :=
  match buf with
  | [] => []
  | b :: rest => if Byte.eqb b x00 then [] else b :: c_str rest
  end.

Fixpoint bytes_eqb (a b : list byte) : bool :=
  match a, b with
  | [], [] => true
  | x :: a', y :: b' => Byte.eqb x y && bytes_eqb a' b'
  | _, _ => false
  end.

Definition strlen (buf : list byte) : Z := Z.of_nat (length (c_str buf)).

(** [strcmp(a, b) == 0] *)
Definition strcmp_eq (a b : list byte) : bool := bytes_eqb (c_str a) (c_str b).

(** [memcmp(a, b, n) == 0] on buffers that hold at least [n] bytes. *)
Definition memcmp_eq (a b : list byte) (n : Z) : bool :=
  bytes_eqb (firstn (Z.to_nat n) a) (firstn (Z.to_nat n) b).

(** The pieces of [s] between its ['/'] bytes: what the successive calls
    of [strchr(path, '/')] cut off, the last piece being what is left when
    [strchr] returns [NULL]. *)
Fixpoint components (s : list byte) : list (list byte) :=
  match s with
  | [] => [[]]
  | c :: rest =>
      if Byte.eqb c slash then [] :: components rest
      else match components rest with
           | [] => [[c]]
           | w :: ws => (c :: w) :: ws
           end
  end.

(** ** Path resolver *)

(** A [for] loop over [dir->children] that stops at the first match. *)
Definition find_child (matches : nitrofs_entry_t -> bool) (dir : handle)
    : option handle :=
  option_map (child_handle dir) (find matches (children (self dir))).

(** The test of the intermediate loop, for the component [path, p). *)
Definition component_matches (comp : list byte) (entry : nitrofs_entry_t) : bool :=
  (strlen (name entry) =? Z.of_nat (length comp))
  && memcmp_eq comp (name entry) (Z.of_nat (length comp)).

(** One turn of the [while] loop: [dir] moves to the first matching child
    and is left alone when no child matches. *)
Definition traverse_step (dir : handle) (comp : list byte) : handle :=
  match find_child (component_matches comp) dir with
  | Some entry => entry
  | None => dir
  end.

Definition root_handle (root : nitrofs_entry_t) : handle := mk_handle root [].

(** [nitro_traverse_path]; [Ok None] is the [NULL] result.  On the empty
    string [++path] steps over the terminating NUL. *)
Definition nitro_traverse_path (root : nitrofs_entry_t) (path : list byte)
    : outcome (option handle) :=
  let path := c_str path in
  if bytes_eqb path [slash] then Ok (Some (root_handle root))
  else
    match path with
    | [] => Fault
    | _ :: path' =>
        let comps := components path' in
        let dir := fold_left traverse_step (removelast comps) (root_handle root) in
        Ok (find_child (fun entry => strcmp_eq (last comps []) (name entry)) dir)
    end.

(** ** Attributes *)

(** The fields of [struct stat] that depend on the entry; the owner and
    the three times come from the process and the image file. *)
Record stat : Type :=
  mk_stat {
    st_ino : Z;
    st_nlink : Z;
    st_size : Z;
    st_blksize : Z;
    st_blocks : Z;
    st_mode : nitro_type_t
  }.

Definition nitro_fill_stat (entry : handle) : stat :=
  let sz := size (self entry) in
  mk_stat (Z.lor (Z.shiftl (id (self (parent_of entry))) 8 mod uint32_max)
                 (id (self entry)))
          (links (self entry))
          sz 4096 ((sz + 4096 - 1) / 4096)
          (type (self entry)).

(** ** Directory listing *)

Section Readdir.

(** The buffer and the [filler] callback of the caller; [true] is a
    non-zero return (buffer full). *)
Variable B : Type.
Variable filler : B -> list byte -> stat -> Z -> B * bool.

(** The [for] loop over the children, [off] counting from 2. *)
Fixpoint readdir_children (entry : handle) (cs : list nitrofs_entry_t)
    (off offset0 : Z) (buffer : B) : B :=
  match cs with
  | [] => buffer
  | child :: rest =>
      if off =? offset0 then
        let (buffer', full) :=
          filler buffer (name child)
                 (nitro_fill_stat (child_handle entry child)) (offset0 + 1) in
        if full then buffer'
        else readdir_children entry rest (off + 1) (offset0 + 1) buffer'
      else readdir_children entry rest (off + 1) offset0 buffer
  end.

(** [nitro_readdir]; its return value is always 0, the result is the
    buffer.  [entry] is the handle [nitro_opendir] left in [fi->fh]. *)
Definition nitro_readdir (entry : handle) (offset0 : Z) (buffer : B) : B :=
  let '(offset1, buffer1, full1) :=
    if offset0 =? 0 then
      let (b, full) := filler buffer [x2e] (nitro_fill_stat entry) (offset0 + 1) in
      (offset0 + 1, b, full)
    else (offset0, buffer, false) in
  if full1 then buffer1
  else
    let '(offset2, buffer2, full2) :=
      if offset1 =? 1 then
        let (b, full) :=
          filler buffer1 [x2e; x2e] (nitro_fill_stat (parent_of entry))
                 (offset1 + 1) in
        (offset1 + 1, b, full)
      else (offset1, buffer1, false) in
    if full2 then buffer2
    else readdir_children entry (children (self entry)) 2 offset2 buffer2.

End Readdir.

(** A caller that records the names it is given and never reports a full
    buffer. *)
Definition collect_names (buffer : list (list byte)) (nm : list byte)
    (st : stat) (off : Z) : list (list byte) * bool :=
  (buffer ++ [nm], false).

(** ** Read service *)

(** The conversion of the [size_t] count to the [int] return value. *)
Definition to_int (z : Z) : Z :=
  let r := z mod uint32_max in
  if r <? 2 ^ 31 then r else r - uint32_max.

(** [nitro_read]: the return value and the bytes copied to [buffer].
    [offset0 + size0] is computed in [size_t]. *)
Definition nitro_read (g : nds_t) (fh : handle) (size0 offset0 : Z)
    : outcome (Z * list byte) :=
  let entry := self fh in
  if offset0 <? 0 then Ok (- EINVAL, [])
  else if offset0 >=? size entry then Ok (0, [])
  else
    match load_fat (nds_mapping g) (fat_offset g + id entry * 8) with
    | None => Fault
    | Some fat_entry =>
        let size1 :=
          if (offset0 + size0) mod uint64_max >? size entry
          then size entry - offset0 else size0 in
        match load_bytes (nds_mapping g) (start_offset fat_entry) size1 with
        | None => Fault
        | Some data => Ok (to_int size1, data)
        end
    end.

(** ** Sample images *)

Definition bytes_of (s : String.string) : list byte := String.list_byte_of_string s.

Definition image_header (fo fl ao al : Z) : list byte :=
  repeat x00 64 ++ le_bytes 4 fo ++ le_bytes 4 fl ++ le_bytes 4 ao ++ le_bytes 4 al.

Definition main_record (off nid par : Z) : list byte :=
  le_bytes 4 off ++ le_bytes 2 nid ++ le_bytes 2 par.

Definition fat_record (s e : Z) : list byte := le_bytes 4 s ++ le_bytes 4 e.

(** Root holds, in this order, the file [B], the directory [A] (ID 0xF001)
    and the file [C]; [A] holds the file [c].  Root numbers its files from
    256, [A] from 0. *)
Definition sample_image : list byte :=
  image_header 0x50 28 0x6C 2064
  ++ main_record 16 256 2 ++ main_record 25 0 0xF000
  ++ [u8 0x01] ++ bytes_of "B"%string
  ++ [u8 0x81] ++ bytes_of "A"%string ++ le_bytes 2 0xF001
  ++ [u8 0x01] ++ bytes_of "C"%string ++ [x00]
  ++ [u8 0x01] ++ bytes_of "c"%string ++ [x00]
  ++ fat_record 2172 2176 ++ repeat x00 (255 * 8)
  ++ fat_record 2176 2181 ++ fat_record 2181 2184
  ++ bytes_of "abcd"%string ++ bytes_of "hello"%string ++ bytes_of "xyz"%string.

(** The root's only subentry is a directory whose ID is the root's own. *)
Definition cyclic_image : list byte :=
  image_header 0x50 13 0x60 0
  ++ main_record 8 0 1
  ++ [u8 0x81] ++ bytes_of "x"%string ++ le_bytes 2 0xF000 ++ [x00].


Definition sample_nds : nds_t := mk_nds sample_image 0x50 28 0x6C 2064.

Definition sample_c : nitrofs_entry_t :=
  mk_entry NITRO_FILE_TYPE 4 2 0 (bytes_of "c"%string) [].

Definition sample_A : nitrofs_entry_t :=
  mk_entry NITRO_DIR_TYPE 2 2 0xF001 (bytes_of "A"%string) [sample_c].

Definition sample_B : nitrofs_entry_t :=
  mk_entry NITRO_FILE_TYPE 5 2 256 (bytes_of "B"%string) [].

Definition sample_C : nitrofs_entry_t :=
  mk_entry NITRO_FILE_TYPE 3 2 257 (bytes_of "C"%string) [].

Definition sample_root : nitrofs_entry_t :=
  mk_entry NITRO_DIR_TYPE 8 3 NITRO_ROOT [] [sample_B; sample_A; sample_C].

Definition cyclic_nds : nds_t := mk_nds cyclic_image 0x50 13 0x60 0.



(** An allocator with room for five entries. *)
Definition malloc_five : nat -> bool := fun k => Nat.ltb k 5.


(** The build of [image] comes to an end, with a tree or with a failure. *)
Definition build_terminates (malloc_ok : nat -> bool) (image : list byte) : Prop :=
  exists fuel, nitro_mount malloc_ok fuel image <> OutOfFuel.

(** Handles into the sample tree. *)
Definition sample_hB : handle := child_handle (root_handle sample_root) sample_B.

Definition sample_hA : handle := child_handle (root_handle sample_root) sample_A.

Definition sample_hc : handle := child_handle sample_hA sample_c.

(** ** Paths with repeated separators *)

(** [s] with every ['/'] that follows a ['/'] removed; [after_slash] tells
    whether the byte before [s] was a ['/']. *)
Fixpoint collapse_from (after_slash : bool) (s : list byte) : list byte :=
  match s with
  | [] => []
  | c :: rest =>
      if Byte.eqb c slash then
        if after_slash then collapse_from true rest
        else c :: collapse_from true rest
      else c :: collapse_from false rest
  end.

Definition collapse_slashes (s : list byte) : list byte := collapse_from false s.

Definition is_empty (w : list byte) : bool :=
  match w with
  | [] => true
  | _ :: _ => false
  end.

(** No entry below [e] has the empty string for its name, the name being
    read as a C string. *)
Fixpoint names_nonempty (e : nitrofs_entry_t) : bool :=
  forallb (fun c => negb (is_empty (c_str (name c))) && names_nonempty c)
          (children e).

(** The components with the empty ones dropped, the last one apart. *)
Definition squash (cs : list (list byte)) : list (list byte) :=
  filter (fun w => negb (is_empty w)) (removelast cs) ++ [last cs []].

(** ** The encoded name table, as the format describes it *)

(** A record of a directory's subentry stream. *)
Inductive subentry : Type :=
| SubFile (nm : list byte)
| SubDir (nm : list byte) (dir_id : Z).

Definition sub_name (s : subentry) : list byte :=
  match s with
  | SubFile nm => nm
  | SubDir nm _ => nm
  end.

(** [stream_at m p subs]: the bytes of [m] from position [p] encode the
    records [subs], in this order, followed by the terminating zero byte.
    A record is a length/type byte (high bit: subdirectory, low 7 bits:
    name length), the name, and for a subdirectory a 2-byte ID. *)
Inductive stream_at (m : list byte) : Z -> list subentry -> Prop :=
| stream_end p :
    load8 m p = Some 0 ->
    stream_at m p []
| stream_file p b nm q rest :
    load8 m p = Some b -> b <> 0 -> Z.land b 0x80 = 0 ->
    load_bytes m (p + 1) (Z.land b 0x7F) = Some nm ->
    q = p + 1 + Z.land b 0x7F ->
    stream_at m q rest ->
    stream_at m p (SubFile nm :: rest)
| stream_dir p b nm dir_id q rest :
    load8 m p = Some b -> b <> 0 -> Z.land b 0x80 <> 0 ->
    load_bytes m (p + 1) (Z.land b 0x7F) = Some nm ->
    load16 m (p + 1 + Z.land b 0x7F) = Some dir_id ->
    q = p + 1 + Z.land b 0x7F + 2 ->
    stream_at m q rest ->
    stream_at m p (SubDir nm dir_id :: rest).

(** What a child entry was decoded from. *)
Definition subentry_of (e : nitrofs_entry_t) : subentry :=
  match type e with
  | NITRO_FILE_TYPE => SubFile (name e)
  | NITRO_DIR_TYPE => SubDir (name e) (id e)
  end.

(** The number of bytes a child's record takes in the stream. *)
Definition record_size (e : nitrofs_entry_t) : Z :=
  match type e with
  | NITRO_FILE_TYPE => 1 + Z.of_nat (length (name e))
  | NITRO_DIR_TYPE => 1 + Z.of_nat (length (name e)) + 2
  end.

Definition sum_sizes (cs : list nitrofs_entry_t) : Z :=
  fold_right (fun c acc => record_size c + acc) 0 cs.

Definition is_file (e : nitrofs_entry_t) : bool :=
  match type e with NITRO_FILE_TYPE => true | NITRO_DIR_TYPE => false end.

Definition is_dir (e : nitrofs_entry_t) : bool := negb (is_file e).

Definition count_dirs (cs : list nitrofs_entry_t) : Z :=
  Z.of_nat (length (filter is_dir cs)).

(** The children [cs] carry the file IDs handed out from [nid] on, one per
    file, directories passed over. *)
Fixpoint numbered (nid : Z) (cs : list nitrofs_entry_t) : Prop :=
  match cs with
  | [] => True
  | c :: rest =>
      match type c with
      | NITRO_FILE_TYPE => id c = nid /\ numbered ((nid + 1) mod uint16_max) rest
      | NITRO_DIR_TYPE => numbered nid rest
      end
  end.

(** [d] is [e] or lies below it. *)
Inductive in_tree (d : nitrofs_entry_t) : nitrofs_entry_t -> Prop :=
| in_tree_here : in_tree d d
| in_tree_child c e : In c (children e) -> in_tree d c -> in_tree d e.

(** How a finished file entry relates to the allocation table. *)
Definition file_built (g : nds_t) (f : nitrofs_entry_t) : Prop :=
  children f = [] /\ links f = 2 /\
  exists fat_entry,
    load_fat (nds_mapping g) (fat_offset g + id f * 8) = Some fat_entry /\
    size f = (end_offset fat_entry - start_offset fat_entry) mod uint32_max.

(** How a finished directory entry relates to its main record and its
    subentry stream. *)
Definition dir_built (g : nds_t) (d : nitrofs_entry_t) : Prop :=
  exists entry,
    load_fnt_main (nds_mapping g)
      (fnt_offset g + Z.land (id d) NITRO_DIRMASK * 8) = Some entry /\
    stream_at (nds_mapping g) (fnt_offset g + offset entry)
      (map subentry_of (children d)) /\
    numbered (next_id entry) (children d) /\
    size d = sum_sizes (children d) mod uint32_max /\
    links d = (2 + count_dirs (children d)) mod uint32_max /\
    fnt_offset g + offset entry + sum_sizes (children d)
      < Z.of_nat (length (nds_mapping g)).

#[warnings="-register-all"]
Inductive built (g : nds_t) : nitrofs_entry_t -> Prop :=
| built_file f :
    type f = NITRO_FILE_TYPE -> file_built g f -> built g f
| built_dir d :
    type d = NITRO_DIR_TYPE -> dir_built g d ->
    Forall (built g) (children d) -> built g d.

(** ** The remaining operations *)

Definition ENOENT : Z := 2.
Definition EACCES : Z := 13.
Definition EISDIR : Z := 21.
Definition EROFS : Z := 30.

(** [nitro_getattr]: the return value and the [stat] buffer when it is
    filled. *)
Definition nitro_getattr (root : nitrofs_entry_t) (path : list byte)
    : outcome (Z * option stat) :=
  match nitro_traverse_path root path with
  | Ok None => Ok (- ENOENT, None)
  | Ok (Some entry) => Ok (0, Some (nitro_fill_stat entry))
  | Fail => Fail
  | Fault => Fault
  | OutOfFuel => OutOfFuel
  end.

(** [nitro_opendir]: the return value and the handle stored in [fi->fh]
    when one is stored. *)
Definition nitro_opendir (root : nitrofs_entry_t) (path : list byte)
    : outcome (Z * option handle) :=
  match nitro_traverse_path root path with
  | Ok None => Ok (- ENOENT, None)
  | Ok (Some entry) =>
      match type (self entry) with
      | NITRO_DIR_TYPE => Ok (0, Some entry)
      | NITRO_FILE_TYPE => Ok (- EISDIR, None)
      end
  | Fail => Fail
  | Fault => Fault
  | OutOfFuel => OutOfFuel
  end.

Section Open.

(** The constants of [<fcntl.h>] that [nitro_open] tests. *)
Variables O_ACCMODE O_WRONLY O_RDWR O_CREAT : Z.

(** [nitro_open]: the return value and the handle stored in [fi->fh] when
    one is stored; [flags] is [fi->flags]. *)
Definition nitro_open (root : nitrofs_entry_t) (path : list byte) (flags : Z)
    : outcome (Z * option handle) :=
  match nitro_traverse_path root path with
  | Ok None =>
      if negb (Z.land flags O_CREAT =? 0) then Ok (- EROFS, None)
      else Ok (- ENOENT, None)
  | Ok (Some entry) =>
      if Z.land flags O_ACCMODE =? O_RDWR then Ok (- EACCES, None)
      else if Z.land flags O_ACCMODE =? O_WRONLY then Ok (- EACCES, None)
      else Ok (0, Some entry)
  | Fail => Fail
  | Fault => Fault
  | OutOfFuel => OutOfFuel
  end.

End Open.

(** [nitro_destroy_tree]: the entries handed to [free], in the order of
    the calls: the subtrees of the children, first child first, and then
    the entry itself. *)
Fixpoint nitro_destroy_tree (dir : nitrofs_entry_t) : list nitrofs_entry_t :=
  flat_map nitro_destroy_tree (children dir) ++ [dir].

(** [nitro_destroy] *)
Definition nitro_destroy (root : nitrofs_entry_t) : list nitrofs_entry_t :=
  nitro_destroy_tree root.

Section ProcessArg.

(** The key [fuse_opt_parse] passes for an argument that is no option. *)
Variable FUSE_OPT_KEY_NONOPT : Z.

(** [nitro_process_arg]: the new value of [nds_file] and the return value
    (0 discards the argument, 1 keeps it). *)
Definition nitro_process_arg (nds_file : option (list byte)) (arg : list byte)
    (key : Z) : option (list byte) * Z :=
  if key =? FUSE_OPT_KEY_NONOPT then
    match nds_file with
    | None => (Some arg, 0)
    | Some _ => (nds_file, 1)
    end
  else (nds_file, 1).

(** The calls [fuse_opt_parse] makes, one per argument and in order,
    starting from [nds_file]; the result is [nds_file] at the end and the
    arguments kept. *)
Fixpoint process_args (nds_file : option (list byte))
    (args : list (list byte * Z)) : option (list byte) * list (list byte) :=
  match args with
  | [] => (nds_file, [])
  | (arg, key) :: rest =>
      let (nds_file', rc) := nitro_process_arg nds_file arg key in
      let (final, kept) := process_args nds_file' rest in
      (final, if rc =? 0 then kept else arg :: kept)
  end.

End ProcessArg.

(** ** Listings with offsets *)

(** What a caller of [nitro_readdir] is handed for one entry: the name,
    the attributes and the offset of the entry after it. *)
Definition dirent : Type := (list byte * stat * Z)%type.

(** A caller that records every entry and never reports a full buffer. *)
Definition collect_entries (buffer : list dirent) (nm : list byte)
    (st : stat) (off : Z) : list dirent * bool :=
  (buffer ++ [(nm, st, off)], false).

(** A caller whose buffer holds [cap] entries: an entry that does not fit
    is not stored and the buffer is reported full. *)
Definition bounded_filler (cap : nat) (buffer : list dirent) (nm : list byte)
    (st : stat) (off : Z) : list dirent * bool :=
  if Nat.ltb (length buffer) cap then (buffer ++ [(nm, st, off)], false)
  else (buffer, true).

(** The entries of the children [cs] of [entry], the first one followed by
    offset [off]. *)
Fixpoint child_entries (entry : handle) (cs : list nitrofs_entry_t) (off : Z)
    : list dirent :=
  match cs with
  | [] => []
  | c :: rest =>
      (name c, nitro_fill_stat (child_handle entry c), off)
        :: child_entries entry rest (off + 1)
  end.

(** The whole listing of a directory: ".", ".." and the children. *)
Definition full_listing (entry : handle) : list dirent :=
  ([x2e], nitro_fill_stat entry, 1)
    :: ([x2e; x2e], nitro_fill_stat (parent_of entry), 2)
    :: child_entries entry (children (self entry)) 3.

(** ** Resolution as the format intends it *)

(** [h] points into the tree below [root]: it is the root's handle, or the
    handle of a child of an entry pointed into. *)
Inductive handle_in (root : nitrofs_entry_t) : handle -> Prop :=
| handle_in_root : handle_in root (root_handle root)
| handle_in_child d c :
    handle_in root d -> In c (children (self d)) ->
    handle_in root (child_handle d c).

(** The components joined by ['/']. *)
Fixpoint join_path (comps : list (list byte)) : list byte :=
  match comps with
  | [] => []
  | [w] => w
  | w :: rest => w ++ slash :: join_path rest
  end.

(** A component of a path: not empty, and free of ['/'] and NUL. *)
Definition plain_component (w : list byte) : bool :=
  negb (is_empty w)
  && forallb (fun c => negb (Byte.eqb c slash) && negb (Byte.eqb c x00)) w.

(** Strict resolution: every component names a child of the directory
    reached so far, the first one of that name, or the resolution fails. *)
Fixpoint resolve_strict (dir : handle) (comps : list (list byte))
    : option handle :=
  match comps with
  | [] => Some dir
  | w :: rest =>
      match find_child (fun e => bytes_eqb w (c_str (name e))) dir with
      | Some h => resolve_strict h rest
      | None => None
      end
  end.

(** ** Runs of the builder *)

(** The number of entries of a tree. *)
Fixpoint entry_count (e : nitrofs_entry_t) : nat :=
  S (list_sum (map entry_count (children e))).

Definition entries_count (cs : list nitrofs_entry_t) : nat :=
  list_sum (map entry_count cs).

(** [decodes g p nid cs]: the loop of [nitro_build_subdir], entered at
    position [p] with the running file ID [nid], runs to the terminating
    zero byte and adds the finished entries [cs].  This is the loop's own
    course written as a relation, one rule per branch; it serves the
    proofs about finished trees. *)
Inductive decodes (g : nds_t) : Z -> Z -> list nitrofs_entry_t -> Prop :=
| decodes_end p nid :
    load8 (nds_mapping g) p = Some 0 ->
    decodes g p nid []
| decodes_file p nid b nm fat_entry rest :
    load8 (nds_mapping g) p = Some b -> b <> 0 -> Z.land b 0x80 = 0 ->
    load_bytes (nds_mapping g) (p + 1) (Z.land b 0x7F) = Some nm ->
    load_fat (nds_mapping g) (fat_offset g + nid * 8) = Some fat_entry ->
    decodes g (p + (Z.land b 0x7F + 1)) ((nid + 1) mod uint16_max) rest ->
    decodes g p nid (nitro_init_file (new_entry nm) fat_entry nid :: rest)
| decodes_dir p nid b nm id0 entry sub rest :
    load8 (nds_mapping g) p = Some b -> b <> 0 -> Z.land b 0x80 <> 0 ->
    load_bytes (nds_mapping g) (p + 1) (Z.land b 0x7F) = Some nm ->
    load16 (nds_mapping g) (p + Z.land b 0x7F + 1) = Some id0 ->
    load_fnt_main (nds_mapping g)
      (fnt_offset g + Z.land id0 NITRO_DIRMASK * 8) = Some entry ->
    decodes g (fnt_offset g + offset entry) (next_id entry) sub ->
    decodes g (p + 2 + (Z.land b 0x7F + 1)) nid rest ->
    decodes g p nid
      (mk_entry NITRO_DIR_TYPE (sum_sizes sub mod uint32_max)
                ((2 + count_dirs sub) mod uint32_max) id0 nm sub :: rest).

(** The directory [dir] once the entries [cs] have been added to it. *)
Definition filled (dir : nitrofs_entry_t) (cs : list nitrofs_entry_t)
    : nitrofs_entry_t :=
  mk_entry (type dir) ((size dir + sum_sizes cs) mod uint32_max)
           ((links dir + count_dirs cs) mod uint32_max) (id dir) (name dir)
           (children dir ++ cs).

(** The fields of [d] hold values of their C types. *)
Definition fields_fit (d : nitrofs_entry_t) : Prop :=
  0 <= id d < uint16_max /\ 0 <= size d < uint32_max /\
  0 <= links d < uint32_max.

(** ** Self-reference in the name table *)

(** [record_of g p q]: [q] is the position of the length/type byte of a
    record of the stream that starts at [p], or of its terminator: [p]
    itself, or a position reached from [p] by stepping over records. *)
Inductive record_of (g : nds_t) : Z -> Z -> Prop :=
| record_first p : record_of g p p
| record_next p b q :
    load8 (nds_mapping g) p = Some b -> b <> 0 ->
    record_of g (p + (if Z.land b 0x80 =? 0 then 0 else 2)
                   + (Z.land b 0x7F + 1)) q ->
    record_of g p q.

(** [expands_into g p s]: the stream at [p] has a subdirectory record
    whose directory ID, through its main record, names the stream at
    [s]. *)
Definition expands_into (g : nds_t) (p s : Z) : Prop :=
  exists q b id0 entry,
    record_of g p q /\
    load8 (nds_mapping g) q = Some b /\ b <> 0 /\ Z.land b 0x80 <> 0 /\
    load16 (nds_mapping g) (q + Z.land b 0x7F + 1) = Some id0 /\
    load_fnt_main (nds_mapping g)
      (fnt_offset g + Z.land id0 NITRO_DIRMASK * 8) = Some entry /\
    s = fnt_offset g + offset entry.

(** An expansion path from the directory at [p] to the directory at [t]. *)
Inductive reaches (g : nds_t) : Z -> Z -> Prop :=
| reaches_here p : reaches g p p
| reaches_step p s t : expands_into g p s -> reaches g s t -> reaches g p t.

(** The directory subentries are self-referential: an expansion path from
    the root comes to a directory that has, below it, a subentry pointing
    back to it. *)
Definition self_referential (g : nds_t) : Prop :=
  exists entry p s,
    load_fnt_main (nds_mapping g) (fnt_offset g) = Some entry /\
    reaches g (fnt_offset g + offset entry) p /\
    expands_into g p s /\ reaches g s p.

(** ** An image with one directory named twice *)

(** The root holds the subdirectories [A] and [D], both with ID 0xF001,
    whose stream holds the file [c]. *)
Definition twin_image : list byte :=
  image_header 0x50 28 0x6C 8
  ++ main_record 16 1 2 ++ main_record 25 0 0xF000
  ++ [u8 0x81] ++ bytes_of "A"%string ++ le_bytes 2 0xF001
  ++ [u8 0x81] ++ bytes_of "D"%string ++ le_bytes 2 0xF001 ++ [x00]
  ++ [u8 0x01] ++ bytes_of "c"%string ++ [x00]
  ++ fat_record 116 120
  ++ bytes_of "abcd"%string.

Definition twin_nds : nds_t := mk_nds twin_image 0x50 28 0x6C 8.

Definition twin_A : nitrofs_entry_t :=
  mk_entry NITRO_DIR_TYPE 2 2 0xF001 (bytes_of "A"%string) [sample_c].

Definition twin_D : nitrofs_entry_t :=
  mk_entry NITRO_DIR_TYPE 2 2 0xF001 (bytes_of "D"%string) [sample_c].

Definition twin_root : nitrofs_entry_t :=
  mk_entry NITRO_DIR_TYPE 8 4 NITRO_ROOT [] [twin_A; twin_D].

Definition twin_hAc : handle :=
  child_handle (child_handle (root_handle twin_root) twin_A) sample_c.

Definition twin_hDc : handle :=
  child_handle (child_handle (root_handle twin_root) twin_D) sample_c.

(** * Properties *)

(** ** Bytes and loads *)

Lemma byte_val_range (b : byte) : 0 <= byte_val b < 256.
Proof.
  unfold byte_val. pose proof (Byte.to_N_bounded b). lia.
Qed.

Lemma le_uint_range (bs : list byte) :
  0 <= le_uint bs < 256 ^ Z.of_nat (length bs).
Proof.
  induction bs as [|b bs IH].
  - simpl. lia.
  - cbn [le_uint length]. rewrite Nat2Z.inj_succ, Z.pow_succ_r by lia.
    pose proof (byte_val_range b). lia.
Qed.

Lemma load8_some m p b :
  load8 m p = Some b -> 0 <= p < Z.of_nat (length m) /\ 0 <= b < 256.
Proof.
  unfold load8. destruct (p <? 0) eqn:Hp; [discriminate|].
  apply Z.ltb_ge in Hp.
  destruct (nth_error m (Z.to_nat p)) as [x|] eqn:Hn; [|discriminate].
  simpl. intros H. inversion H; subst.
  assert (Hl : (Z.to_nat p < length m)%nat)
    by (apply nth_error_Some; congruence).
  split; [lia | apply byte_val_range].
Qed.

Lemma load_bytes_some m a n bs :
  load_bytes m a n = Some bs ->
  0 <= a /\ 0 <= n /\ a + n <= Z.of_nat (length m) /\
  Z.of_nat (length bs) = n.
Proof.
  unfold load_bytes.
  destruct (0 <=? a) eqn:Ha; [|discriminate].
  destruct (0 <=? n) eqn:Hn; [|discriminate].
  destruct (a + n <=? Z.of_nat (length m)) eqn:Hl; [|discriminate].
  simpl. intros H. inversion H; subst.
  apply Z.leb_le in Ha, Hn, Hl.
  repeat split; try lia.
  rewrite length_firstn, length_skipn. lia.
Qed.

Lemma load16_range m a v : load16 m a = Some v -> 0 <= v < uint16_max.
Proof.
  unfold load16. destruct (load_bytes m a 2) as [bs|] eqn:Hb; [|discriminate].
  simpl. intros H. inversion H; subst.
  apply load_bytes_some in Hb. destruct Hb as (_ & _ & _ & Hl).
  pose proof (le_uint_range bs) as Hr.
  replace (Z.of_nat (length bs)) with 2 in Hr by lia.
  unfold uint16_max. change (256 ^ 2) with (2 ^ 16) in Hr. exact Hr.
Qed.

Lemma le_uint_firstn_range (n : nat) (bs : list byte) :
  0 <= le_uint (firstn n bs) < 256 ^ Z.of_nat n.
Proof.
  pose proof (le_uint_range (firstn n bs)) as Hr.
  pose proof (length_firstn n bs) as Hl.
  assert (Hle : (length (firstn n bs) <= n)%nat) by lia.
  split; [lia|].
  eapply Z.lt_le_trans; [apply Hr|].
  apply Z.pow_le_mono_r; lia.
Qed.

Lemma load_fnt_main_range m a entry :
  load_fnt_main m a = Some entry ->
  0 <= offset entry < uint32_max /\ 0 <= next_id entry < uint16_max.
Proof.
  unfold load_fnt_main.
  destruct (load_bytes m a 8) as [bs|]; [|discriminate].
  intros H. inversion H; subst. cbn [offset next_id].
  split.
  - apply (le_uint_firstn_range 4).
  - apply (le_uint_firstn_range 2).
Qed.

(** ** The builder and the encoded tables *)

Lemma record_size_pos (e : nitrofs_entry_t) : 0 < record_size e.
Proof.
  unfold record_size. destruct (type e); lia.
Qed.

Lemma sum_sizes_nonneg (cs : list nitrofs_entry_t) : 0 <= sum_sizes cs.
Proof.
  induction cs as [|c cs IH]; simpl; [lia|].
  pose proof (record_size_pos c). lia.
Qed.

Lemma count_dirs_cons (c : nitrofs_entry_t) (cs : list nitrofs_entry_t) :
  count_dirs (c :: cs) = (if is_dir c then 1 else 0) + count_dirs cs.
Proof.
  unfold count_dirs. cbn [filter]. destruct (is_dir c); cbn [length]; lia.
Qed.

Section BuildFacts.

Variable malloc_ok : nat -> bool.
Variable g : nds_t.

(** What one run of the loop adds to the directory it fills. *)
Lemma build_from_ok (fuel : nat) :
  forall k p nid dir r k',
    nitro_build_subdir_from malloc_ok g fuel k p nid dir = Ok (r, k') ->
    0 <= size dir < uint32_max ->
    0 <= links dir < uint32_max ->
    exists new,
      type r = type dir /\ id r = id dir /\ name r = name dir /\
      children r = children dir ++ new /\
      size r = (size dir + sum_sizes new) mod uint32_max /\
      links r = (links dir + count_dirs new) mod uint32_max /\
      stream_at (nds_mapping g) p (map subentry_of new) /\
      numbered nid new /\
      Forall (built g) new /\
      0 <= p /\ p + sum_sizes new < Z.of_nat (length (nds_mapping g)).
Proof.
  assert (HM : 0 < uint32_max) by reflexivity.
  induction fuel as [|fuel IH]; intros k p nid dir r k' H Hsize Hlinks;
    simpl in H; [discriminate|].
  destruct (load8 (nds_mapping g) p) as [b|] eqn:Hb; [|discriminate].
  pose proof (load8_some _ _ _ Hb) as [Hp Hbr].
  destruct (b =? 0) eqn:Hz.
  - (* the terminating zero byte *)
    apply Z.eqb_eq in Hz. subst b. inversion H; subst.
    exists []. rewrite app_nil_r. simpl.
    repeat split; try reflexivity; try lia.
    + rewrite Z.add_0_r, Z.mod_small; [reflexivity | exact Hsize].
    + unfold count_dirs. simpl.
      rewrite Z.add_0_r, Z.mod_small; [reflexivity | exact Hlinks].
    + constructor. exact Hb.
    + constructor.
  - apply Z.eqb_neq in Hz.
    destruct (malloc_ok k); simpl in H; [|discriminate].
    destruct (load_bytes (nds_mapping g) (p + 1) (Z.land b 127)) as [nm|] eqn:Hnm;
      [|discriminate].
    pose proof (load_bytes_some _ _ _ _ Hnm) as (_ & Hlen0 & Hnmle & Hlen).
    destruct (Z.land b 128 =? 0) eqn:Hd; simpl in H.
    + (* a file subentry *)
      apply Z.eqb_eq in Hd.
      destruct (load_fat (nds_mapping g) (fat_offset g + nid * 8)) as [fe|] eqn:Hfat;
        [|discriminate].
      apply IH in H; [|simpl; apply Z.mod_pos_bound; exact HM ..].
      destruct H as (new & Ht & Hi & Hn & Hc & Hs & Hl & Hst & Hnum & Hall & _ & Hend).
      set (f := nitro_init_file (new_entry nm) fe nid) in *.
      assert (Hrs : record_size f = 1 + Z.land b 127)
        by (unfold record_size, f, nitro_init_file, new_entry; cbn [type name]; lia).
      exists (f :: new). simpl in Ht, Hi, Hn, Hc, Hs, Hl.
      repeat split; try assumption; try lia.
      * rewrite Hc, <- app_assoc. reflexivity.
      * rewrite Hs, Zplus_mod_idemp_l. f_equal. simpl. lia.
      * rewrite Hl, Zplus_mod_idemp_l. f_equal.
        rewrite count_dirs_cons. simpl. lia.
      * simpl. change (subentry_of f) with (SubFile nm).
        eapply stream_file; eauto.
        replace (p + 1 + Z.land b 127) with (p + (Z.land b 127 + 1)) by lia.
        exact Hst.
      * constructor; [|exact Hall].
        apply built_file; [reflexivity|].
        repeat split. exists fe. split; [exact Hfat | reflexivity].
      * simpl. lia.
    + (* a subdirectory subentry *)
      apply Z.eqb_neq in Hd.
      destruct (load16 (nds_mapping g) (p + Z.land b 127 + 1)) as [id0|] eqn:Hid;
        [|discriminate].
      destruct (load_fnt_main (nds_mapping g)
                  (fnt_offset g + Z.land id0 NITRO_DIRMASK * 8)) as [entry|] eqn:Hmain;
        [|discriminate].
      destruct (nitro_build_subdir_from malloc_ok g fuel (S k)
                  (fnt_offset g + offset entry) (next_id entry)
                  (nitro_init_dir (new_entry nm) id0))
        as [[next' k1]| | |] eqn:Hrec; try discriminate.
      apply IH in Hrec; [|simpl; unfold uint32_max; lia ..].
      destruct Hrec as (sub & Ht' & Hi' & Hn' & Hc' & Hs' & Hl' & Hst' & Hnum' & Hall'
                        & Hp' & Hend').
      apply IH in H; [|simpl; apply Z.mod_pos_bound; exact HM ..].
      destruct H as (new & Ht & Hi & Hn & Hc & Hs & Hl & Hst & Hnum & Hall & _ & Hend).
      simpl in Ht', Hi', Hn', Hc', Hs', Hl', Ht, Hi, Hn, Hc, Hs, Hl.
      assert (Hrs : record_size next' = 1 + Z.land b 127 + 2)
        by (unfold record_size; rewrite Ht', Hn'; cbn [type name]; lia).
      assert (Hisd : is_dir next' = true)
        by (unfold is_dir, is_file; rewrite Ht'; reflexivity).
      exists (next' :: new).
      repeat split; try assumption; try lia.
      * rewrite Hc, <- app_assoc. reflexivity.
      * rewrite Hs, Zplus_mod_idemp_l. f_equal. simpl. lia.
      * rewrite Hl, Zplus_mod_idemp_l. f_equal.
        rewrite count_dirs_cons, Hisd. lia.
      * simpl. unfold subentry_of at 1. rewrite Ht', Hn', Hi'.
        eapply stream_dir; eauto.
        -- replace (p + 1 + Z.land b 127) with (p + Z.land b 127 + 1) by lia.
           exact Hid.
        -- replace (p + 1 + Z.land b 127 + 2) with (p + 2 + (Z.land b 127 + 1))
             by lia.
           exact Hst.
      * simpl. rewrite Ht'. exact Hnum.
      * constructor; [|exact Hall].
        apply built_dir; [exact Ht'| |rewrite Hc'; exact Hall'].
        exists entry. rewrite Hi', Hc'.
        repeat split; assumption.
      * simpl. lia.
Qed.

(** A run that came to an end with some fuel ends the same way with
    more. *)
Lemma build_from_more_fuel (fuel : nat) :
  forall k p nid dir r fuel',
    nitro_build_subdir_from malloc_ok g fuel k p nid dir = r ->
    r <> OutOfFuel ->
    (fuel <= fuel')%nat ->
    nitro_build_subdir_from malloc_ok g fuel' k p nid dir = r.
Proof.
  induction fuel as [|fuel IH]; intros k p nid dir r fuel' H Hr Hle;
    [simpl in H; congruence|].
  destruct fuel' as [|fuel']; [lia|].
  assert (Hle' : (fuel <= fuel')%nat) by lia.
  cbn [nitro_build_subdir_from] in *.
  destruct (load8 (nds_mapping g) p) as [b|]; [|exact H].
  destruct (b =? 0); [exact H|].
  cbv zeta in *.
  destruct (negb (malloc_ok k)); [exact H|].
  destruct (load_bytes (nds_mapping g) (p + 1) (Z.land b 127)) as [nm|];
    [|exact H].
  destruct (negb (Z.land b 128 =? 0)).
  - destruct (load16 (nds_mapping g) (p + Z.land b 127 + 1)) as [id0|];
      [|exact H].
    destruct (load_fnt_main (nds_mapping g)
                (fnt_offset g + Z.land id0 NITRO_DIRMASK * 8)) as [entry|];
      [|exact H].
    destruct (nitro_build_subdir_from malloc_ok g fuel (S k)
                (fnt_offset g + offset entry) (next_id entry)
                (nitro_init_dir (new_entry nm) id0))
      as [[next' k1]| | |] eqn:Hrec; [| | |congruence];
      rewrite (IH _ _ _ _ _ fuel' Hrec) by (discriminate || exact Hle');
      [|exact H ..].
    apply (IH _ _ _ _ _ fuel' H Hr Hle').
  - destruct (load_fat (nds_mapping g) (fat_offset g + nid * 8)) as [fe|];
      [|exact H].
    apply (IH _ _ _ _ _ fuel' H Hr Hle').
Qed.

Lemma build_tree_built (fuel : nat) (root : nitrofs_entry_t) :
  nitro_build_tree malloc_ok g fuel = Ok root ->
  built g root /\ id root = NITRO_ROOT /\ name root = [].
Proof.
  unfold nitro_build_tree, nitro_build_subdir.
  destruct (malloc_ok 0); simpl; [|discriminate].
  destruct (load_fnt_main (nds_mapping g) (fnt_offset g)) as [entry|] eqn:Hmain;
    [|discriminate].
  destruct (nitro_build_subdir_from malloc_ok g fuel 1
              (fnt_offset g + offset entry) (next_id entry)
              (nitro_init_dir (new_entry []) NITRO_ROOT))
    as [[root' k1]| | |] eqn:Hrec; try discriminate.
  intros H. inversion H; subst root'. clear H.
  apply build_from_ok in Hrec; [|simpl; unfold uint32_max; lia ..].
  destruct Hrec as (new & Ht & Hi & Hn & Hc & Hs & Hl & Hst & Hnum & Hall & Hp & Hend).
  simpl in Ht, Hi, Hn, Hc, Hs, Hl.
  repeat split; try assumption.
  apply built_dir; [exact Ht| |rewrite Hc; exact Hall].
  exists entry. rewrite Hi, Hc.
  change (Z.land NITRO_ROOT NITRO_DIRMASK * 8) with 0. rewrite Z.add_0_r.
  repeat split; assumption.
Qed.

End BuildFacts.

Lemma nds_open_mapping (image : list byte) (g : nds_t) :
  nds_open image = Some g -> nds_mapping g = image.
Proof.
  unfold nds_open.
  destruct (load32 image FNT_OFFSET), (load32 image FNT_LENGTH),
    (load32 image FAT_OFFSET), (load32 image FAT_LENGTH); try discriminate.
  intros H. inversion H. reflexivity.
Qed.

Lemma mount_built malloc_ok fuel image g root :
  nitro_mount malloc_ok fuel image = Ok (g, root) ->
  nds_mapping g = image /\ built g root /\ id root = NITRO_ROOT.
Proof.
  unfold nitro_mount.
  destruct (nds_open image) as [g0|] eqn:Ho; [|discriminate].
  destruct (nitro_build_tree malloc_ok g0 fuel) as [r| | |] eqn:Hb;
    try discriminate.
  intros H. inversion H; subst.
  apply build_tree_built in Hb. destruct Hb as (Hb & Hi & _).
  split; [eapply nds_open_mapping; eassumption | split; assumption].
Qed.

Lemma built_in_tree g d e : in_tree d e -> built g e -> built g d.
Proof.
  induction 1 as [|c e Hin _ IH]; intros Hb; [exact Hb|].
  apply IH. inversion Hb as [f Ht [Hc _]|d0 Ht Hd Hall]; subst.
  - rewrite Hc in Hin. destruct Hin.
  - rewrite Forall_forall in Hall. apply Hall. exact Hin.
Qed.

Lemma built_dir_inv g d :
  built g d -> type d = NITRO_DIR_TYPE -> dir_built g d.
Proof.
  intros Hb Ht. inversion Hb as [f Hf _|d0 _ Hd _]; subst; [congruence | exact Hd].
Qed.

Lemma built_file_inv g f :
  built g f -> type f = NITRO_FILE_TYPE -> file_built g f.
Proof.
  intros Hb Ht. inversion Hb as [f0 _ Hf|d0 Hd _ _]; subst; [exact Hf | congruence].
Qed.

(** A position holds at most one stream. *)
Lemma stream_at_unique m p s1 :
  stream_at m p s1 -> forall s2, stream_at m p s2 -> s1 = s2.
Proof.
  induction 1 as [p Hz|p b nm q rest Hb Hnz Hty Hnm Hq Hrest IH
                    |p b nm did q rest Hb Hnz Hty Hnm Hid Hq Hrest IH];
    intros s2 H2; inversion H2; subst; try congruence.
  - assert (b0 = b) by congruence. subst b0.
    assert (nm0 = nm) by congruence. subst nm0.
    f_equal. apply IH. assumption.
  - assert (b0 = b) by congruence. subst b0.
    assert (nm0 = nm) by congruence. subst nm0.
    assert (dir_id = did) by congruence. subst dir_id.
    f_equal. apply IH. assumption.
Qed.

Lemma stream_at_pos m p subs : stream_at m p subs -> 0 <= p.
Proof.
  intros H. inversion H; subst;
    match goal with Hl : load8 _ _ = Some _ |- _ => apply load8_some in Hl end;
    lia.
Qed.


Lemma readdir_children_collect (entry : handle) (cs : list nitrofs_entry_t) :
  forall off buffer,
    readdir_children _ collect_names entry cs off off buffer
    = buffer ++ map name cs.
Proof.
  induction cs as [|c cs IH]; intros off buffer; cbn [readdir_children map].
  - rewrite app_nil_r. reflexivity.
  - rewrite Z.eqb_refl. cbn [collect_names]. rewrite IH, <- app_assoc.
    reflexivity.
Qed.

Lemma readdir_collect (entry : handle) :
  nitro_readdir _ collect_names entry 0 []
  = [x2e] :: [x2e; x2e] :: map name (children (self entry)).
Proof.
  unfold nitro_readdir.
  cbn [Z.eqb Pos.eqb collect_names app Z.add Pos.add Pos.succ].
  rewrite readdir_children_collect. reflexivity.
Qed.

Lemma map_sub_name_subentry_of (cs : list nitrofs_entry_t) :
  map sub_name (map subentry_of cs) = map name cs.
Proof.
  induction cs as [|c cs IH]; [reflexivity|].
  cbn [map]. rewrite IH. f_equal.
  unfold subentry_of. destruct (type c); reflexivity.
Qed.

(** ** The sample image *)

Lemma sample_mount :
  nitro_mount malloc_always 100 sample_image = Ok (sample_nds, sample_root).
Proof. vm_compute. reflexivity. Qed.

(** ** Sequential file IDs *)



(** ** Directory sizes *)

(** C7.  After a successful build the size of every directory [d] is the
    sum of the encoded record sizes of its children, 1 + name length + 2
    for a subdirectory and 1 + name length for a file.  The sum is kept in
    a [uint32_t]; it is exact for every image of at most 4 GiB, which the
    32-bit offsets of the format address, and holds modulo 2^32 in any
    case. *)
Theorem dir_size_is_sum_of_records malloc_ok fuel image g root d :
  nitro_mount malloc_ok fuel image = Ok (g, root) ->
  in_tree d root ->
  type d = NITRO_DIR_TYPE ->
  size d = sum_sizes (children d) mod uint32_max /\
  (Z.of_nat (length image) <= uint32_max -> size d = sum_sizes (children d)).
Proof.
  intros Hm Hin Ht.
  apply mount_built in Hm. destruct Hm as (Hmap & Hb & _).
  pose proof (built_in_tree _ _ _ Hin Hb) as Hd.
  destruct (built_dir_inv _ _ Hd Ht) as (entry & _ & Hst & _ & Hsz & _ & Hend).
  split; [exact Hsz|].
  intros Hlen. rewrite Hsz. apply Z.mod_small.
  pose proof (stream_at_pos _ _ _ Hst).
  pose proof (sum_sizes_nonneg (children d)).
  rewrite Hmap in Hend. lia.
Qed.

Lemma dir_size_is_sum_of_records_witness :
  size sample_root = sum_sizes (children sample_root) mod uint32_max /\
  (Z.of_nat (length sample_image) <= uint32_max ->
   size sample_root = sum_sizes (children sample_root)).
Proof.
  apply (dir_size_is_sum_of_records malloc_always 100 sample_image sample_nds
           sample_root sample_root).
  - vm_compute. reflexivity.
  - apply in_tree_here.
  - reflexivity.
Defined.

(** ** Listing order *)

(** C8.  After a successful build, listing any directory of the tree from
    offset 0 gives ".", ".." and then the names of the records of the
    directory's encoded subentry stream, in the order of the stream; the
    children themselves are the decoded records, one for one. *)
Theorem listing_in_stream_order malloc_ok fuel image g root (h : handle) :
  nitro_mount malloc_ok fuel image = Ok (g, root) ->
  in_tree (self h) root ->
  type (self h) = NITRO_DIR_TYPE ->
  exists entry subs,
    load_fnt_main (nds_mapping g)
      (fnt_offset g + Z.land (id (self h)) NITRO_DIRMASK * 8) = Some entry /\
    stream_at (nds_mapping g) (fnt_offset g + offset entry) subs /\
    map subentry_of (children (self h)) = subs /\
    nitro_readdir _ collect_names h 0 []
    = [x2e] :: [x2e; x2e] :: map sub_name subs.
Proof.
  intros Hm Hin Ht.
  apply mount_built in Hm. destruct Hm as (_ & Hb & _).
  pose proof (built_in_tree _ _ _ Hin Hb) as Hd.
  destruct (built_dir_inv _ _ Hd Ht) as (entry & Hmain & Hst & _).
  exists entry, (map subentry_of (children (self h))).
  repeat split; try assumption.
  rewrite readdir_collect, map_sub_name_subentry_of. reflexivity.
Qed.

Lemma listing_in_stream_order_witness :
  exists entry subs,
    load_fnt_main (nds_mapping sample_nds)
      (fnt_offset sample_nds
       + Z.land (id (self (root_handle sample_root))) NITRO_DIRMASK * 8)
    = Some entry /\
    stream_at (nds_mapping sample_nds) (fnt_offset sample_nds + offset entry) subs /\
    map subentry_of (children (self (root_handle sample_root))) = subs /\
    nitro_readdir _ collect_names (root_handle sample_root) 0 []
    = [x2e] :: [x2e; x2e] :: map sub_name subs.
Proof.
  apply (listing_in_stream_order malloc_always 100 sample_image sample_nds
           sample_root (root_handle sample_root)).
  - vm_compute. reflexivity.
  - apply in_tree_here.
  - reflexivity.
Defined.

(** The sample image declares B, A, C in this order, and so are they
    listed. *)
Example sample_listing :
  nitro_readdir _ collect_names (root_handle sample_root) 0 []
  = [bytes_of "."%string; bytes_of ".."%string; bytes_of "B"%string;
     bytes_of "A"%string; bytes_of "C"%string].
Proof. reflexivity. Qed.

(** ** Self-referential images *)

Lemma build_from_fail malloc_ok g (fuel : nat) :
  forall k p nid dir,
    nitro_build_subdir_from malloc_ok g fuel k p nid dir = Fail ->
    exists j, malloc_ok j = false.
Proof.
  induction fuel as [|fuel IH]; intros k p nid dir H; simpl in H;
    [discriminate|].
  destruct (load8 (nds_mapping g) p) as [b|]; [|discriminate].
  destruct (b =? 0); [discriminate|].
  destruct (malloc_ok k) eqn:Hk; simpl in H; [|exists k; exact Hk].
  destruct (load_bytes (nds_mapping g) (p + 1) (Z.land b 127)) as [nm|];
    [|discriminate].
  destruct (Z.land b 128 =? 0); simpl in H.
  - destruct (load_fat (nds_mapping g) (fat_offset g + nid * 8)) as [fe|];
      [|discriminate].
    eapply IH; eassumption.
  - destruct (load16 (nds_mapping g) (p + Z.land b 127 + 1)) as [id0|];
      [|discriminate].
    destruct (load_fnt_main (nds_mapping g)
                (fnt_offset g + Z.land id0 NITRO_DIRMASK * 8)) as [entry|];
      [|discriminate].
    destruct (nitro_build_subdir_from malloc_ok g fuel (S k)
                (fnt_offset g + offset entry) (next_id entry)
                (nitro_init_dir (new_entry nm) id0))
      as [[next' k1]| | |] eqn:Hrec; try discriminate.
    + eapply IH; eassumption.
    + eapply IH; eassumption.
Qed.

(** The only failure the build reports is a failed allocation: whenever
    mounting returns -1, a call of [malloc] has failed. *)
Theorem build_fails_only_without_memory (malloc_ok : nat -> bool) fuel image :
  nitro_mount malloc_ok fuel image = Fail ->
  exists j, malloc_ok j = false.
Proof.
  unfold nitro_mount, nitro_build_tree, nitro_build_subdir.
  destruct (nds_open image) as [g|]; [|discriminate].
  destruct (malloc_ok 0%nat) eqn:H0; simpl; [|intros _; exists 0%nat; exact H0].
  destruct (load_fnt_main (nds_mapping g) (fnt_offset g)) as [entry|];
    [|discriminate].
  destruct (nitro_build_subdir_from malloc_ok g fuel 1
              (fnt_offset g + offset entry) (next_id entry)
              (nitro_init_dir (new_entry []) NITRO_ROOT))
    as [[root' k1]| | |] eqn:Hrec; try discriminate.
  intros _. eapply build_from_fail; eassumption.
Qed.

Lemma build_fails_only_without_memory_witness :
  exists j, malloc_five j = false.
Proof.
  apply (build_fails_only_without_memory malloc_five 100 cyclic_image).
  vm_compute. reflexivity.
Defined.

Lemma cyclic_build_from (fuel : nat) :
  forall k nid dir,
    nitro_build_subdir_from malloc_always cyclic_nds fuel k 0x58 nid dir
    = OutOfFuel.
Proof.
  induction fuel as [|fuel IH]; intros k nid dir; [reflexivity|].
  cbn [nitro_build_subdir_from].
  change (load8 (nds_mapping cyclic_nds) 88) with (Some 0x81).
  cbv iota beta.
  change (0x81 =? 0) with false. change (negb (malloc_always k)) with false.
  cbv iota beta zeta.
  change (load_bytes (nds_mapping cyclic_nds) (88 + 1) (Z.land 129 127))
    with (Some (bytes_of "x"%string)).
  change (negb (Z.land 129 128 =? 0)) with true.
  change (load16 (nds_mapping cyclic_nds) (88 + Z.land 129 127 + 1))
    with (Some NITRO_ROOT).
  cbv iota beta.
  change (load_fnt_main (nds_mapping cyclic_nds)
            (fnt_offset cyclic_nds + Z.land NITRO_ROOT NITRO_DIRMASK * 8))
    with (Some (mk_fnt_main 8 0 1)).
  cbv iota beta.
  change (fnt_offset cyclic_nds + offset (mk_fnt_main 8 0 1)) with 88.
  rewrite IH. reflexivity.
Qed.

(** C3, counterexample.  The root's stream of [cyclic_image] holds one
    subdirectory whose ID is the root's; with an allocator that never
    fails the build of this image does not come to an end. *)
Lemma cyclic_image_never_built :
  stream_at cyclic_image 0x58 [SubDir (bytes_of "x"%string) NITRO_ROOT] /\
  ~ build_terminates malloc_always cyclic_image.
Proof.
  split.
  - eapply stream_dir with (b := 0x81); try reflexivity; try discriminate.
    apply stream_end. reflexivity.
  - intros [fuel H]. apply H.
    unfold nitro_mount.
    change (nds_open cyclic_image) with (Some cyclic_nds). cbv iota beta.
    unfold nitro_build_tree, nitro_build_subdir.
    change (negb (malloc_always 0)) with false. cbv iota beta.
    change (load_fnt_main (nds_mapping cyclic_nds) (fnt_offset cyclic_nds))
      with (Some (mk_fnt_main 8 0 1)).
    cbv iota beta.
    change (fnt_offset cyclic_nds + offset (mk_fnt_main 8 0 1)) with 88.
    rewrite cyclic_build_from. reflexivity.
Qed.

(** ** Directory IDs beyond the declared name table *)




(** ** Reading a file *)

Lemma load_fat_range m a fe :
  load_fat m a = Some fe -> 0 <= start_offset fe /\ 0 <= end_offset fe.
Proof.
  unfold load_fat. destruct (load_bytes m a 8) as [bs|]; [|discriminate].
  intros H. inversion H; subst. cbn [start_offset end_offset].
  split; apply le_uint_range.
Qed.

Lemma load_bytes_in_range m a n :
  0 <= a -> 0 <= n -> a + n <= Z.of_nat (length m) ->
  exists bs, load_bytes m a n = Some bs /\ Z.of_nat (length bs) = n.
Proof.
  intros Ha Hn Hl. unfold load_bytes.
  apply Z.leb_le in Ha as Ha', Hn as Hn', Hl as Hl'.
  rewrite Ha', Hn', Hl'. cbn [andb].
  eexists. split; [reflexivity|].
  rewrite length_firstn, length_skipn. lia.
Qed.

(** C1, the code at a failing input.  The file [B] of the sample image
    holds "hello" at positions 2176 to 2180.  A read of 2 bytes at offset
    1 returns the bytes "he" at the start of the file; the bytes at the
    requested offset are "el". *)
Theorem read_ignores_offset :
  nitro_traverse_path sample_root (bytes_of "/B"%string) = Ok (Some sample_hB) /\
  load_fat (nds_mapping sample_nds) (fat_offset sample_nds + id sample_B * 8)
  = Some (mk_fat 2176 2181) /\
  nitro_read sample_nds sample_hB 2 1 = Ok (2, bytes_of "he"%string) /\
  load_bytes sample_image (2176 + 1) 2 = Some (bytes_of "el"%string).
Proof.
  repeat split; vm_compute; reflexivity.
Qed.

(** C5.  [nitro_read] returns -EINVAL for a negative offset; it returns 0
    and copies nothing for an offset at or past the end of the file; and
    for an offset inside the file and a length that runs past its end it
    copies exactly size - offset bytes and returns that count.  The last
    part is for a request whose end [offset + length] is representable in
    [size_t] and a file whose extent lies inside the mapping, outside of
    which the C program reads out of bounds; the count is returned through
    an [int]. *)
Theorem read_bounds g fh size0 offset0 :
  (offset0 < 0 -> nitro_read g fh size0 offset0 = Ok (- EINVAL, [])) /\
  (0 <= offset0 -> size (self fh) <= offset0 ->
   nitro_read g fh size0 offset0 = Ok (0, [])) /\
  (forall fat_entry,
      0 <= offset0 < size (self fh) ->
      size (self fh) < offset0 + size0 ->
      offset0 + size0 < uint64_max ->
      load_fat (nds_mapping g) (fat_offset g + id (self fh) * 8) = Some fat_entry ->
      start_offset fat_entry + size (self fh) <= Z.of_nat (length (nds_mapping g)) ->
      exists data,
        nitro_read g fh size0 offset0
        = Ok (to_int (size (self fh) - offset0), data) /\
        Z.of_nat (length data) = size (self fh) - offset0 /\
        (size (self fh) - offset0 < 2 ^ 31 ->
         to_int (size (self fh) - offset0) = size (self fh) - offset0)).
Proof.
  unfold nitro_read. split; [|split].
  - intros H. apply Z.ltb_lt in H. rewrite H. reflexivity.
  - intros H0 H.
    destruct (offset0 <? 0) eqn:Hn; [apply Z.ltb_lt in Hn; lia|].
    destruct (offset0 >=? size (self fh)) eqn:Hge; [reflexivity|].
    rewrite Z.geb_leb in Hge. apply Z.leb_gt in Hge. lia.
  - intros fe Hoff Hlong Hfit Hfat Hext.
    destruct (offset0 <? 0) eqn:Hn; [apply Z.ltb_lt in Hn; lia|].
    destruct (offset0 >=? size (self fh)) eqn:Hge;
      [rewrite Z.geb_leb in Hge; apply Z.leb_le in Hge; lia|].
    rewrite Hfat.
    rewrite (Z.mod_small (offset0 + size0)) by (unfold uint64_max in *; lia).
    destruct (offset0 + size0 >? size (self fh)) eqn:Hgt;
      [|rewrite Z.gtb_ltb in Hgt; apply Z.ltb_ge in Hgt; lia].
    pose proof (load_fat_range _ _ _ Hfat) as [Hs _].
    destruct (load_bytes_in_range (nds_mapping g) (start_offset fe)
                (size (self fh) - offset0)) as (data & Hd & Hl); try lia.
    rewrite Hd. exists data. repeat split; [exact Hl|].
    intros Hsmall. unfold to_int, uint32_max.
    rewrite Z.mod_small by lia.
    destruct (size (self fh) - offset0 <? 2 ^ 31) eqn:Hlt; [reflexivity|].
    apply Z.ltb_ge in Hlt. lia.
Qed.

Lemma read_bounds_witness :
  exists data,
    nitro_read sample_nds sample_hB 200 1
    = Ok (to_int (size (self sample_hB) - 1), data) /\
    Z.of_nat (length data) = size (self sample_hB) - 1 /\
    (size (self sample_hB) - 1 < 2 ^ 31 ->
     to_int (size (self sample_hB) - 1) = size (self sample_hB) - 1).
Proof.
  apply (proj2 (proj2 (read_bounds sample_nds sample_hB 200 1))
           (mk_fat 2176 2181)).
  - vm_compute. split; [discriminate | reflexivity].
  - vm_compute. reflexivity.
  - vm_compute. reflexivity.
  - vm_compute. reflexivity.
  - vm_compute. discriminate.
Defined.

(** ** Resolving a path with a missing component *)

(** C2, the code at a failing input.  In the sample tree the directory
    [A] exists and has no child named [b], yet "/A/b/c" resolves to the
    file [c] of [A]: the loop over the intermediate components leaves
    [dir] where it is when no child matches, and goes on. *)
Theorem missing_component_is_skipped :
  nitro_traverse_path sample_root (bytes_of "/A"%string) = Ok (Some sample_hA) /\
  find (fun entry => strcmp_eq (bytes_of "b"%string) (name entry))
       (children sample_A) = None /\
  nitro_traverse_path sample_root (bytes_of "/A/b/c"%string)
  = Ok (Some sample_hc).
Proof.
  repeat split; vm_compute; reflexivity.
Qed.

(** ** Node identity *)

(** C9.  The [st_ino] of an entry is (parent's ID << 8) | own ID, cut to
    32 bits; the sample image, mounted, has two distinct entries with the
    same [st_ino]: the file [B] with ID 256 under the root (ID 0xF000) and
    the file [c] with ID 0 under the directory [A] (ID 0xF001). *)
Theorem st_ino_formula_not_injective :
  (forall h : handle,
      0 <= id (self h) < uint16_max ->
      st_ino (nitro_fill_stat h)
      = Z.lor (Z.shiftl (id (self (parent_of h))) 8) (id (self h))
          mod uint32_max) /\
  (exists root h1 h2,
      nitro_mount malloc_always 100 sample_image = Ok (sample_nds, root) /\
      nitro_traverse_path root (bytes_of "/B"%string) = Ok (Some h1) /\
      nitro_traverse_path root (bytes_of "/A/c"%string) = Ok (Some h2) /\
      self h1 <> self h2 /\
      ancestors h1 <> ancestors h2 /\
      st_ino (nitro_fill_stat h1) = st_ino (nitro_fill_stat h2)).
Proof.
  split.
  - intros h Hid. unfold nitro_fill_stat. cbn [st_ino].
    unfold uint32_max, uint16_max in *.
    rewrite <- !Z.land_ones by lia.
    rewrite Z.land_lor_distr_l. f_equal.
    rewrite Z.land_ones by lia. symmetry. apply Z.mod_small. lia.
  - exists sample_root, sample_hB, sample_hc.
    repeat split; try (vm_compute; reflexivity); discriminate.
Qed.

Lemma st_ino_formula_not_injective_witness :
  st_ino (nitro_fill_stat sample_hc)
  = Z.lor (Z.shiftl (id (self (parent_of sample_hc))) 8) (id (self sample_hc))
      mod uint32_max.
Proof.
  apply (proj1 st_ino_formula_not_injective sample_hc).
  vm_compute. split; [discriminate | reflexivity].
Defined.

(** ** Repeated separators *)

Lemma bytes_eqb_eq (a : list byte) :
  forall b, bytes_eqb a b = true <-> a = b.
Proof.
  induction a as [|x a IH]; intros [|y b]; cbn [bytes_eqb];
    try (split; [discriminate | intros H; discriminate H]);
    [split; reflexivity|].
  rewrite andb_true_iff, IH. split.
  - intros [Hxy Hab]. apply Byte.byte_dec_bl in Hxy. subst. reflexivity.
  - intros H. inversion H; subst. split; [apply Byte.byte_dec_lb|]; reflexivity.
Qed.

Lemma components_nonnil (s : list byte) : components s <> [].
Proof.
  destruct s as [|c r]; cbn [components]; [discriminate|].
  destruct (Byte.eqb c slash); [discriminate|].
  destruct (components r); discriminate.
Qed.

Lemma squash_cons_nil (cs : list (list byte)) :
  cs <> [] -> squash ([] :: cs) = squash cs.
Proof.
  intros H. unfold squash. destruct cs as [|w ws]; [contradiction|].
  reflexivity.
Qed.

Lemma squash_cons_word (c : byte) (w : list byte) (ws : list (list byte)) :
  ws <> [] -> squash ((c :: w) :: ws) = (c :: w) :: squash ws.
Proof.
  intros H. unfold squash. destruct ws as [|w1 ws]; [contradiction|].
  reflexivity.
Qed.

Lemma components_collapse (s : list byte) :
  components (collapse_from true s) = squash (components s) /\
  components (collapse_from false s)
  = match components s with
    | [] => []
    | w0 :: [] => [w0]
    | w0 :: rest => w0 :: squash rest
    end.
Proof.
  induction s as [|c r [IHt IHf]]; [split; reflexivity|].
  pose proof (components_nonnil r) as Hr.
  cbn [components collapse_from].
  destruct (Byte.eqb c slash) eqn:Hc.
  - split.
    + rewrite IHt, squash_cons_nil by exact Hr. reflexivity.
    + cbn [components]. rewrite Hc, IHt.
      destruct (components r) as [|w ws]; [contradiction | reflexivity].
  - cbn [components]. rewrite Hc, IHf.
    destruct (components r) as [|w ws]; [contradiction|].
    destruct ws as [|w1 ws]; [split; reflexivity|].
    split; [|reflexivity].
    rewrite squash_cons_word by discriminate. reflexivity.
Qed.

Lemma removelast_squash (cs : list (list byte)) :
  removelast (squash cs) = filter (fun w => negb (is_empty w)) (removelast cs).
Proof.
  unfold squash. apply removelast_last.
Qed.

Lemma last_squash (cs : list (list byte)) : last (squash cs) [] = last cs [].
Proof.
  unfold squash. apply last_last.
Qed.

Lemma filter_filter_same {A} (f : A -> bool) (l : list A) :
  filter f (filter f l) = filter f l.
Proof.
  induction l as [|x l IH]; [reflexivity|].
  cbn [filter]. destruct (f x) eqn:Hx; [|exact IH].
  cbn [filter]. rewrite Hx, IH. reflexivity.
Qed.

(** Collapsing keeps the last component and the non-empty ones before
    it. *)
Lemma components_collapse_same (b : bool) (s : list byte) :
  filter (fun w => negb (is_empty w))
         (removelast (components (collapse_from b s)))
  = filter (fun w => negb (is_empty w)) (removelast (components s)) /\
  last (components (collapse_from b s)) [] = last (components s) [].
Proof.
  destruct (components_collapse s) as [Ht Hf].
  destruct b.
  - rewrite Ht, removelast_squash, last_squash, filter_filter_same.
    split; reflexivity.
  - rewrite Hf. destruct (components s) as [|w0 [|w1 ws]];
      [split; reflexivity ..|].
    change (removelast (w0 :: squash (w1 :: ws)))
      with (match squash (w1 :: ws) with
            | [] => []
            | _ :: _ => w0 :: removelast (squash (w1 :: ws))
            end).
    change (last (w0 :: squash (w1 :: ws)) [])
      with (match squash (w1 :: ws) with
            | [] => w0
            | _ :: _ => last (squash (w1 :: ws)) []
            end).
    assert (Hsq : squash (w1 :: ws) <> [])
      by (unfold squash; destruct (filter _ _); discriminate).
    destruct (squash (w1 :: ws)) as [|x xs] eqn:Heq; [contradiction|].
    rewrite <- Heq, removelast_squash, last_squash.
    change (removelast (w0 :: w1 :: ws)) with (w0 :: removelast (w1 :: ws)).
    cbn [filter]. rewrite filter_filter_same.
    split; reflexivity.
Qed.

Lemma c_str_collapse (s : list byte) :
  forall b, c_str (collapse_from b s) = collapse_from b (c_str s).
Proof.
  induction s as [|c r IH]; intros b; [reflexivity|].
  cbn [collapse_from c_str].
  destruct (Byte.eqb c slash) eqn:Hs.
  - apply Byte.byte_dec_bl in Hs. subst c.
    change (Byte.eqb slash x00) with false. cbv iota.
    cbn [collapse_from]. change (Byte.eqb slash slash) with true. cbv iota.
    destruct b; [apply IH|].
    cbn [c_str]. change (Byte.eqb slash x00) with false. cbv iota.
    rewrite IH. reflexivity.
  - cbn [c_str]. destruct (Byte.eqb c x00); [reflexivity|].
    cbn [collapse_from]. rewrite Hs, IH. reflexivity.
Qed.

Lemma names_nonempty_child (e c : nitrofs_entry_t) :
  names_nonempty e = true -> In c (children e) ->
  c_str (name c) <> [] /\ names_nonempty c = true.
Proof.
  intros He Hin. destruct e as [t sz l i n cs]. cbn [names_nonempty children] in *.
  rewrite forallb_forall in He. apply He in Hin.
  apply andb_true_iff in Hin. destruct Hin as [Hn Hc].
  split; [|exact Hc].
  destruct (c_str (name c)); [discriminate Hn | discriminate].
Qed.

Lemma traverse_step_nonempty (dir : handle) (comp : list byte) :
  names_nonempty (self dir) = true ->
  names_nonempty (self (traverse_step dir comp)) = true.
Proof.
  intros Hd. unfold traverse_step, find_child.
  destruct (find (component_matches comp) (children (self dir))) as [e|] eqn:Hf;
    cbn [option_map]; [|exact Hd].
  apply find_some in Hf. destruct Hf as [Hin _].
  apply (names_nonempty_child _ _ Hd Hin).
Qed.

(** An empty component matches no child, so the loop passes over it. *)
Lemma traverse_step_empty (dir : handle) :
  names_nonempty (self dir) = true -> traverse_step dir [] = dir.
Proof.
  intros Hd. unfold traverse_step, find_child.
  destruct (find (component_matches []) (children (self dir))) as [e|] eqn:Hf;
    cbn [option_map]; [|reflexivity].
  apply find_some in Hf. destruct Hf as [Hin Hm].
  destruct (names_nonempty_child _ _ Hd Hin) as [Hne _].
  unfold component_matches, strlen in Hm. cbn [length Z.of_nat] in Hm.
  apply andb_true_iff in Hm. destruct Hm as [Hl _].
  apply Z.eqb_eq in Hl.
  destruct (c_str (name e)); [contradiction | discriminate].
Qed.

Lemma traverse_skips_empty (comps : list (list byte)) :
  forall dir,
    names_nonempty (self dir) = true ->
    fold_left traverse_step comps dir
    = fold_left traverse_step (filter (fun w => negb (is_empty w)) comps) dir.
Proof.
  induction comps as [|w ws IH]; intros dir Hd; [reflexivity|].
  cbn [fold_left filter]. destruct w as [|c w]; cbn [is_empty negb].
  - rewrite traverse_step_empty by exact Hd. apply IH. exact Hd.
  - cbn [fold_left]. apply IH. apply traverse_step_nonempty. exact Hd.
Qed.

(** C10 (as the code has it).  In a tree without empty names, a path and
    the path with its repeated separators collapsed resolve alike, unless
    the collapsed path is "/": the root is recognised by comparing the
    whole path with "/" before any component is looked at. *)
Theorem repeated_separators_collapse root path :
  names_nonempty root = true ->
  collapse_slashes (c_str path) <> [slash] ->
  nitro_traverse_path root (collapse_slashes path)
  = nitro_traverse_path root path.
Proof.
  intros Hroot Hnot. unfold nitro_traverse_path, collapse_slashes in *.
  rewrite c_str_collapse.
  destruct (bytes_eqb (collapse_from false (c_str path)) [slash]) eqn:Hc;
    [apply bytes_eqb_eq in Hc; contradiction|].
  destruct (bytes_eqb (c_str path) [slash]) eqn:Hp.
  { apply bytes_eqb_eq in Hp. rewrite Hp in Hnot. contradiction Hnot.
    reflexivity. }
  destruct (c_str path) as [|c0 rest]; [reflexivity|].
  cbn [collapse_from].
  assert (Hshape : exists b,
             (if Byte.eqb c0 slash then c0 :: collapse_from true rest
              else c0 :: collapse_from false rest)
             = c0 :: collapse_from b rest)
    by (destruct (Byte.eqb c0 slash); eexists; reflexivity).
  destruct Hshape as [b Hb]. rewrite Hb.
  destruct (components_collapse_same b rest) as [Hinter Hlast].
  rewrite Hlast.
  rewrite (traverse_skips_empty (removelast (components (collapse_from b rest))))
    by exact Hroot.
  rewrite (traverse_skips_empty (removelast (components rest))) by exact Hroot.
  rewrite Hinter. reflexivity.
Qed.

Lemma repeated_separators_collapse_witness :
  nitro_traverse_path sample_root (collapse_slashes (bytes_of "//A///c"%string))
  = nitro_traverse_path sample_root (bytes_of "//A///c"%string).
Proof.
  apply (repeated_separators_collapse sample_root (bytes_of "//A///c"%string)).
  - vm_compute. reflexivity.
  - vm_compute. discriminate.
Defined.

(** C10, counterexample.  The sample tree has no empty name; "//" holds
    consecutive separators and collapses to "/", which resolves to the
    root, while "//" itself resolves to nothing. *)
Lemma double_slash_is_not_root :
  names_nonempty sample_root = true /\
  collapse_slashes (bytes_of "//"%string) = bytes_of "/"%string /\
  nitro_traverse_path sample_root (bytes_of "//"%string) = Ok None /\
  nitro_traverse_path sample_root (bytes_of "/"%string)
  = Ok (Some (root_handle sample_root)).
Proof.
  repeat split; vm_compute; reflexivity.
Qed.

(** * Further properties of the code *)

(** ** Opening *)

(** [nitro_open] stores a handle and returns 0 exactly when the path
    resolves and the access mode is neither [O_RDWR] nor [O_WRONLY]; the
    entry may be a directory, and [O_CREAT] on an entry that exists is no
    obstacle.  A write mode on an entry that exists gives -EACCES; a path
    that does not resolve gives -EROFS with [O_CREAT] and -ENOENT
    without. *)
Theorem open_is_read_only (O_ACCMODE O_WRONLY O_RDWR O_CREAT : Z)
    (root : nitrofs_entry_t) (path : list byte) (flags : Z) :
  (forall h,
      nitro_open O_ACCMODE O_WRONLY O_RDWR O_CREAT root path flags
      = Ok (0, Some h)
      <-> nitro_traverse_path root path = Ok (Some h) /\
          Z.land flags O_ACCMODE <> O_RDWR /\
          Z.land flags O_ACCMODE <> O_WRONLY) /\
  (forall h,
      nitro_traverse_path root path = Ok (Some h) ->
      Z.land flags O_ACCMODE = O_RDWR \/ Z.land flags O_ACCMODE = O_WRONLY ->
      nitro_open O_ACCMODE O_WRONLY O_RDWR O_CREAT root path flags
      = Ok (- EACCES, None)) /\
  (nitro_traverse_path root path = Ok None ->
   nitro_open O_ACCMODE O_WRONLY O_RDWR O_CREAT root path flags
   = Ok (if Z.land flags O_CREAT =? 0 then - ENOENT else - EROFS, None)).
Proof.
  unfold nitro_open. split; [|split].
  - intros h.
    destruct (nitro_traverse_path root path) as [[e|]| | |];
      try (split; [discriminate | intros [H _]; discriminate]).
    + destruct (Z.land flags O_ACCMODE =? O_RDWR) eqn:E1.
      { apply Z.eqb_eq in E1. split; [discriminate | intros (_ & H & _); contradiction]. }
      destruct (Z.land flags O_ACCMODE =? O_WRONLY) eqn:E2.
      { apply Z.eqb_eq in E2. split; [discriminate | intros (_ & _ & H); contradiction]. }
      apply Z.eqb_neq in E1, E2. split.
      * intros H. inversion H; subst. repeat split; assumption.
      * intros (H & _ & _). inversion H; subst. reflexivity.
    + destruct (negb (Z.land flags O_CREAT =? 0));
        (split; [discriminate | intros [H _]; discriminate]).
  - intros h Hh Hw. rewrite Hh.
    destruct (Z.land flags O_ACCMODE =? O_RDWR) eqn:E1; [reflexivity|].
    destruct (Z.land flags O_ACCMODE =? O_WRONLY) eqn:E2; [reflexivity|].
    apply Z.eqb_neq in E1, E2. destruct Hw; contradiction.
  - intros Hn. rewrite Hn.
    destruct (Z.land flags O_CREAT =? 0); reflexivity.
Qed.

Lemma open_is_read_only_witness :
  nitro_open 3 1 2 64 sample_root (bytes_of "/B"%string) 1
  = Ok (- EACCES, None).
Proof.
  apply (proj1 (proj2 (open_is_read_only 3 1 2 64 sample_root
                         (bytes_of "/B"%string) 1)) sample_hB).
  - vm_compute. reflexivity.
  - right. reflexivity.
Defined.

(** [nitro_opendir] stores a handle and returns 0 exactly when the path
    resolves to a directory; for a path that resolves to a file it returns
    -EISDIR, and for one that does not resolve -ENOENT. *)
Theorem opendir_wants_directory (root : nitrofs_entry_t) (path : list byte) :
  (forall h,
      nitro_opendir root path = Ok (0, Some h)
      <-> nitro_traverse_path root path = Ok (Some h) /\
          type (self h) = NITRO_DIR_TYPE) /\
  (forall h,
      nitro_traverse_path root path = Ok (Some h) ->
      type (self h) = NITRO_FILE_TYPE ->
      nitro_opendir root path = Ok (- EISDIR, None)) /\
  (nitro_traverse_path root path = Ok None ->
   nitro_opendir root path = Ok (- ENOENT, None)).
Proof.
  unfold nitro_opendir. split; [|split].
  - intros h.
    destruct (nitro_traverse_path root path) as [[e|]| | |];
      try (split; [discriminate | intros [H _]; discriminate]).
    destruct (type (self e)) eqn:Ht.
    + split; [discriminate|]. intros [H Hd]. inversion H; subst. congruence.
    + split.
      * intros H. inversion H; subst. split; [reflexivity | exact Ht].
      * intros [H _]. inversion H; subst. reflexivity.
  - intros h Hh Ht. rewrite Hh, Ht. reflexivity.
  - intros Hn. rewrite Hn. reflexivity.
Qed.

Lemma opendir_wants_directory_witness :
  nitro_opendir sample_root (bytes_of "/B"%string) = Ok (- EISDIR, None).
Proof.
  apply (proj1 (proj2 (opendir_wants_directory sample_root
                         (bytes_of "/B"%string))) sample_hB).
  - vm_compute. reflexivity.
  - reflexivity.
Defined.

(** ** Command-line arguments *)

Lemma process_args_set K (f : list byte) (args : list (list byte * Z)) :
  process_args K (Some f) args = (Some f, map fst args).
Proof.
  induction args as [|[arg key] rest IH]; [reflexivity|].
  cbn [process_args map fst]. unfold nitro_process_arg.
  destruct (key =? K); rewrite IH; reflexivity.
Qed.

(** Over the calls made for a command line, [nitro_process_arg] takes the
    first argument that is no option for the image file and discards it,
    and keeps every other argument, also the later ones that are no
    options; without such an argument [nds_file] stays unset. *)
Theorem first_nonoption_is_image (K : Z) :
  (forall args,
      (forall a, In a args -> snd a <> K) ->
      process_args K None args = (None, map fst args)) /\
  (forall pre arg post,
      (forall a, In a pre -> snd a <> K) ->
      process_args K None (pre ++ (arg, K) :: post)
      = (Some arg, map fst (pre ++ post))).
Proof.
  assert (Hpre : forall pre rest,
             (forall a, In a pre -> snd a <> K) ->
             process_args K None (pre ++ rest)
             = (fst (process_args K None rest),
                map fst pre ++ snd (process_args K None rest))).
  { induction pre as [|[a k] pre IH]; intros rest Hno.
    - cbn [app map]. destruct (process_args K None rest); reflexivity.
    - cbn [app process_args]. unfold nitro_process_arg.
      assert (Hk : k <> K) by (apply (Hno (a, k)); left; reflexivity).
      apply Z.eqb_neq in Hk. rewrite Hk.
      rewrite IH by (intros x Hx; apply Hno; right; exact Hx).
      reflexivity. }
  split.
  - intros args Hno. rewrite <- (app_nil_r args) at 1.
    rewrite Hpre by exact Hno. cbn [process_args fst snd].
    rewrite app_nil_r. reflexivity.
  - intros pre arg post Hno. rewrite Hpre by exact Hno.
    cbn [process_args]. unfold nitro_process_arg. rewrite Z.eqb_refl.
    rewrite process_args_set. cbn [fst snd Z.eqb].
    rewrite map_app. reflexivity.
Qed.

Lemma first_nonoption_is_image_witness :
  process_args (-2) None
    ([(bytes_of "-f"%string, -1)]
       ++ (bytes_of "rom.nds"%string, -2) :: [(bytes_of "mnt"%string, -2)])
  = (Some (bytes_of "rom.nds"%string),
     map fst ([(bytes_of "-f"%string, -1)] ++ [(bytes_of "mnt"%string, -2)])).
Proof.
  apply (proj2 (first_nonoption_is_image (-2))).
  intros a [Ha|[]]. subst a. vm_compute. discriminate.
Defined.

(** ** Listing from an offset *)

Lemma readdir_children_before (B : Type) (filler : B -> list byte -> stat -> Z -> B * bool)
    (entry : handle) (cs : list nitrofs_entry_t) :
  forall off o buffer,
    o < off -> readdir_children B filler entry cs off o buffer = buffer.
Proof.
  induction cs as [|c cs IH]; intros off o buffer Hlt; [reflexivity|].
  cbn [readdir_children].
  destruct (off =? o) eqn:E; [apply Z.eqb_eq in E; lia|].
  apply IH. lia.
Qed.

Lemma readdir_children_entries (entry : handle) (cs : list nitrofs_entry_t) :
  forall off o buffer,
    off <= o ->
    readdir_children _ collect_entries entry cs off o buffer
    = buffer ++ skipn (Z.to_nat (o - off)) (child_entries entry cs (off + 1)).
Proof.
  induction cs as [|c cs IH]; intros off o buffer Hle.
  - cbn [readdir_children child_entries]. rewrite skipn_nil, app_nil_r.
    reflexivity.
  - cbn [readdir_children child_entries].
    destruct (off =? o) eqn:E.
    + apply Z.eqb_eq in E. subst o. cbn [collect_entries].
      rewrite IH by lia. rewrite !Z.sub_diag.
      cbn [Z.to_nat skipn]. rewrite <- app_assoc. reflexivity.
    + apply Z.eqb_neq in E. rewrite IH by lia.
      replace (Z.to_nat (o - off)) with (S (Z.to_nat (o - (off + 1)))) by lia.
      reflexivity.
Qed.

Lemma readdir_from_offset (entry : handle) (o : Z) :
  nitro_readdir _ collect_entries entry o []
  = if o <? 0 then [] else skipn (Z.to_nat o) (full_listing entry).
Proof.
  unfold nitro_readdir, full_listing.
  destruct (o <? 0) eqn:Hneg.
  - apply Z.ltb_lt in Hneg.
    destruct (o =? 0) eqn:E0; [apply Z.eqb_eq in E0; lia|].
    destruct (o =? 1) eqn:E1; [apply Z.eqb_eq in E1; lia|].
    apply readdir_children_before. lia.
  - apply Z.ltb_ge in Hneg.
    destruct (o =? 0) eqn:E0.
    + apply Z.eqb_eq in E0. subst o.
      cbn [collect_entries app Z.add Z.eqb Pos.eqb Pos.add Pos.succ Z.to_nat skipn].
      rewrite readdir_children_entries by lia. reflexivity.
    + apply Z.eqb_neq in E0.
      destruct (o =? 1) eqn:E1.
      * apply Z.eqb_eq in E1. subst o.
        cbn [collect_entries app Z.add Pos.add Pos.succ].
        rewrite readdir_children_entries by lia. reflexivity.
      * apply Z.eqb_neq in E1.
        rewrite readdir_children_entries by lia.
        replace (Z.to_nat o) with (S (S (Z.to_nat (o - 2)))) by lia.
        reflexivity.
Qed.

(** Listing a directory from offset [o] hands out the whole listing
    (".", "..", then the children in order) less its first [o] entries,
    each entry with the offset of the one after it; a negative offset or
    one past the end lists nothing. *)
Theorem readdir_resumes_at_offset (entry : handle) (o : Z) :
  nitro_readdir _ collect_entries entry o []
  = if o <? 0 then [] else skipn (Z.to_nat o) (full_listing entry).
Proof. apply readdir_from_offset. Qed.

Lemma readdir_children_bounded (cap : nat) (entry : handle)
    (cs : list nitrofs_entry_t) :
  forall off o buffer,
    off <= o -> (length buffer <= cap)%nat ->
    readdir_children _ (bounded_filler cap) entry cs off o buffer
    = buffer ++ firstn (cap - length buffer)
                  (skipn (Z.to_nat (o - off)) (child_entries entry cs (off + 1))).
Proof.
  induction cs as [|c cs IH]; intros off o buffer Hle Hcap.
  - cbn [readdir_children child_entries]. rewrite skipn_nil, firstn_nil, app_nil_r.
    reflexivity.
  - cbn [readdir_children child_entries].
    destruct (off =? o) eqn:E.
    + apply Z.eqb_eq in E. subst o. unfold bounded_filler.
      rewrite Z.sub_diag. cbn [Z.to_nat skipn].
      destruct (Nat.ltb (length buffer) cap) eqn:Hfit.
      * apply Nat.ltb_lt in Hfit.
        rewrite IH by (rewrite ?length_app; cbn [length]; lia).
        replace (off + 1 - (off + 1)) with 0 by lia. cbn [Z.to_nat skipn].
        rewrite length_app. cbn [length].
        replace (cap - length buffer)%nat
          with (S (cap - (length buffer + 1)))%nat by lia.
        cbn [firstn]. rewrite <- app_assoc. reflexivity.
      * apply Nat.ltb_ge in Hfit.
        replace (cap - length buffer)%nat with 0%nat by lia.
        cbn [firstn]. rewrite app_nil_r. reflexivity.
    + apply Z.eqb_neq in E. rewrite IH by lia.
      replace (Z.to_nat (o - off)) with (S (Z.to_nat (o - (off + 1)))) by lia.
      reflexivity.
Qed.

Lemma readdir_bounded_page (cap : nat) (entry : handle) (o : Z) :
  0 <= o ->
  nitro_readdir _ (bounded_filler cap) entry o []
  = firstn cap (skipn (Z.to_nat o) (full_listing entry)).
Proof.
  intros Ho. unfold nitro_readdir, full_listing.
  destruct (o =? 0) eqn:E0.
  - apply Z.eqb_eq in E0. subst o. cbn [Z.to_nat skipn].
    unfold bounded_filler at 1. cbn [length].
    destruct cap as [|cap]; [reflexivity|].
    cbn [Nat.ltb Nat.leb app Z.add Z.eqb Pos.eqb Pos.add Pos.succ firstn].
    unfold bounded_filler at 1. cbn [length].
    destruct cap as [|cap]; [reflexivity|].
    cbn [Nat.ltb Nat.leb app Z.add Pos.add Pos.succ firstn].
    rewrite readdir_children_bounded by (cbn [length]; lia).
    change (Z.to_nat (2 - 2)) with 0%nat. change (2 + 1) with 3.
    cbn [length Nat.sub skipn app]. rewrite ?Nat.sub_0_r. reflexivity.
  - apply Z.eqb_neq in E0.
    destruct (o =? 1) eqn:E1.
    + apply Z.eqb_eq in E1. subst o.
      change (Z.to_nat 1) with 1%nat. cbn [skipn].
      unfold bounded_filler at 1. cbn [length].
      destruct cap as [|cap]; [reflexivity|].
      cbn [Nat.ltb Nat.leb app Z.add Pos.add Pos.succ firstn].
      rewrite readdir_children_bounded by (cbn [length]; lia).
      change (Z.to_nat (2 - 2)) with 0%nat. change (2 + 1) with 3.
      cbn [length Nat.sub skipn app]. rewrite ?Nat.sub_0_r. reflexivity.
    + apply Z.eqb_neq in E1.
      rewrite readdir_children_bounded by (cbn [length]; lia).
      cbn [length app]. rewrite Nat.sub_0_r. change (2 + 1) with 3.
      replace (Z.to_nat o) with (S (S (Z.to_nat (o - 2)))) by lia.
      reflexivity.
Qed.

(** With a buffer that holds [cap] entries, listing from offset [o] stops
    at the first entry that does not fit and has handed out the first
    [cap] entries of what was left; listing again from the offset after
    the entries handed out gives the rest, so the pages put together are
    the listing from [o]. *)
Theorem readdir_pages (cap : nat) (entry : handle) (o : Z) :
  0 <= o ->
  nitro_readdir _ (bounded_filler cap) entry o []
  = firstn cap (nitro_readdir _ collect_entries entry o []) /\
  nitro_readdir _ (bounded_filler cap) entry o []
  ++ nitro_readdir _ collect_entries entry
       (o + Z.of_nat (length (nitro_readdir _ (bounded_filler cap) entry o [])))
       []
  = nitro_readdir _ collect_entries entry o [].
Proof.
  intros Ho.
  rewrite readdir_bounded_page by exact Ho.
  rewrite !readdir_from_offset.
  destruct (o <? 0) eqn:E; [apply Z.ltb_lt in E; lia|].
  split; [reflexivity|].
  set (L := skipn (Z.to_nat o) (full_listing entry)).
  destruct (o + Z.of_nat (length (firstn cap L)) <? 0) eqn:E2;
    [apply Z.ltb_lt in E2; lia|].
  replace (Z.to_nat (o + Z.of_nat (length (firstn cap L))))
    with (length (firstn cap L) + Z.to_nat o)%nat by lia.
  rewrite <- skipn_skipn. fold L.
  rewrite length_firstn.
  destruct (Nat.le_ge_cases cap (length L)) as [Hc|Hc].
  - rewrite Nat.min_l by exact Hc. apply firstn_skipn.
  - rewrite Nat.min_r by exact Hc.
    rewrite skipn_all, firstn_all2 by lia. apply app_nil_r.
Qed.

Lemma readdir_pages_witness :
  nitro_readdir _ (bounded_filler 2) (root_handle sample_root) 1 []
  = firstn 2 (nitro_readdir _ collect_entries (root_handle sample_root) 1 []) /\
  nitro_readdir _ (bounded_filler 2) (root_handle sample_root) 1 []
  ++ nitro_readdir _ collect_entries (root_handle sample_root)
       (1 + Z.of_nat (length (nitro_readdir _ (bounded_filler 2)
                                (root_handle sample_root) 1 []))) []
  = nitro_readdir _ collect_entries (root_handle sample_root) 1 [].
Proof.
  apply (readdir_pages 2 (root_handle sample_root) 1). lia.
Defined.

(** ** What a resolved handle points to *)

Lemma firstn_c_str (s : list byte) : firstn (length (c_str s)) s = c_str s.
Proof.
  induction s as [|c s IH]; [reflexivity|].
  cbn [c_str]. destruct (Byte.eqb c x00); [reflexivity|].
  cbn [length firstn]. rewrite IH. reflexivity.
Qed.

Lemma bytes_eqb_refl (a : list byte) : bytes_eqb a a = true.
Proof. apply bytes_eqb_eq. reflexivity. Qed.

(** The test of the intermediate loop holds exactly for the children
    whose name, as a C string, is the component. *)
Lemma component_matches_eqb (comp : list byte) (e : nitrofs_entry_t) :
  component_matches comp e = bytes_eqb comp (c_str (name e)).
Proof.
  unfold component_matches, strlen, memcmp_eq. rewrite Nat2Z.id.
  destruct (bytes_eqb comp (c_str (name e))) eqn:E.
  - apply bytes_eqb_eq in E. subst comp.
    rewrite Z.eqb_refl, firstn_c_str, firstn_all, bytes_eqb_refl. reflexivity.
  - apply andb_false_iff.
    destruct (Z.of_nat (length (c_str (name e))) =? Z.of_nat (length comp)) eqn:El;
      [right | left; reflexivity].
    apply Z.eqb_eq in El. apply Nat2Z.inj in El.
    rewrite <- El, firstn_c_str, El, firstn_all. exact E.
Qed.

Lemma c_str_no_nul (s : list byte) : ~ In x00 (c_str s).
Proof.
  induction s as [|c s IH]; [intros []|].
  cbn [c_str]. destruct (Byte.eqb c x00) eqn:E; [intros []|].
  intros [H|H]; [|exact (IH H)].
  subst c. discriminate E.
Qed.

Lemma c_str_fixed (s : list byte) : ~ In x00 s -> c_str s = s.
Proof.
  induction s as [|c s IH]; intros Hno; [reflexivity|].
  cbn [c_str]. destruct (Byte.eqb c x00) eqn:E.
  - apply Byte.byte_dec_bl in E. subst c. contradiction Hno. left. reflexivity.
  - rewrite IH; [reflexivity|]. intros H. apply Hno. right. exact H.
Qed.

Lemma components_bytes (s : list byte) :
  forall w c, In w (components s) -> In c w -> In c s.
Proof.
  induction s as [|x s IH]; intros w c Hw Hc.
  - destruct Hw as [Hw|[]]. subst w. destruct Hc.
  - cbn [components] in Hw. destruct (Byte.eqb x slash).
    + destruct Hw as [Hw|Hw]; [subst w; destruct Hc|].
      right. eapply IH; eassumption.
    + pose proof (components_nonnil s) as Hn.
      destruct (components s) as [|w0 ws]; [contradiction|].
      destruct Hw as [Hw|Hw].
      * subst w. destruct Hc as [Hc|Hc]; [left; exact Hc|].
        right. apply (IH w0 c); [left; reflexivity | exact Hc].
      * right. apply (IH w c); [right; exact Hw | exact Hc].
Qed.

Lemma last_in {A} (l : list A) (d : A) : l <> [] -> In (last l d) l.
Proof.
  induction l as [|x l IH]; intros H; [contradiction|].
  destruct l as [|y l]; [left; reflexivity|].
  right. apply IH. discriminate.
Qed.

Lemma traverse_step_in root (dir : handle) (comp : list byte) :
  handle_in root dir -> handle_in root (traverse_step dir comp).
Proof.
  intros Hd. unfold traverse_step, find_child.
  destruct (find (component_matches comp) (children (self dir))) as [e|] eqn:Hf;
    cbn [option_map]; [|exact Hd].
  apply find_some in Hf. apply handle_in_child; [exact Hd | apply Hf].
Qed.

Lemma fold_traverse_in root (comps : list (list byte)) :
  forall dir, handle_in root dir ->
              handle_in root (fold_left traverse_step comps dir).
Proof.
  induction comps as [|w ws IH]; intros dir Hd; [exact Hd|].
  cbn [fold_left]. apply IH. apply traverse_step_in. exact Hd.
Qed.

Lemma in_tree_step (c e root : nitrofs_entry_t) :
  in_tree e root -> In c (children e) -> in_tree c root.
Proof.
  intros He Hin. induction He as [|c0 e0 Hin0 _ IH].
  - apply in_tree_child with (c := c); [exact Hin | apply in_tree_here].
  - apply in_tree_child with (c := c0); [exact Hin0 | exact IH].
Qed.

Lemma handle_in_tree root (h : handle) : handle_in root h -> in_tree (self h) root.
Proof.
  induction 1 as [|d c Hd IH Hin]; [apply in_tree_here|].
  cbn [child_handle self]. eapply in_tree_step; eassumption.
Qed.

Lemma traverse_handle_in root path h :
  nitro_traverse_path root path = Ok (Some h) -> handle_in root h.
Proof.
  unfold nitro_traverse_path.
  destruct (bytes_eqb (c_str path) [slash]).
  - intros H. inversion H. apply handle_in_root.
  - destruct (c_str path) as [|c0 rest]; [discriminate|].
    intros H. inversion H as [Hf]. unfold find_child in Hf.
    destruct (find _ (children (self (fold_left traverse_step
                                        (removelast (components rest))
                                        (root_handle root))))) as [e|] eqn:Hfind;
      [|discriminate].
    cbn [option_map] in Hf. inversion Hf.
    apply find_some in Hfind.
    apply handle_in_child; [apply fold_traverse_in, handle_in_root | apply Hfind].
Qed.

(** A handle that [nitro_traverse_path] returns points into the tree.
    For the path "/" it is the root's; for any other path it is the handle
    of a child of the directory the intermediate components led to, that
    directory is its parent, and the child's name, as a C string, is the
    last component of the path. *)
Theorem resolved_handle_is_in_tree root path h :
  nitro_traverse_path root path = Ok (Some h) ->
  handle_in root h /\ in_tree (self h) root /\
  (c_str path = [slash] -> h = root_handle root) /\
  (c_str path <> [slash] ->
   handle_in root (parent_of h) /\
   In (self h) (children (self (parent_of h))) /\
   h = child_handle (parent_of h) (self h) /\
   c_str (name (self h)) = last (components (tl (c_str path))) []).
Proof.
  unfold nitro_traverse_path. intros H.
  destruct (bytes_eqb (c_str path) [slash]) eqn:Hs.
  - apply bytes_eqb_eq in Hs. inversion H; subst h.
    split; [apply handle_in_root|]. split; [apply in_tree_here|].
    split; [reflexivity|]. intros Hne. contradiction.
  - assert (Hne : c_str path <> [slash])
      by (intros E; rewrite E in Hs; discriminate Hs).
    pose proof (c_str_no_nul path) as Hnul.
    destruct (c_str path) as [|c0 rest]; [discriminate|].
    inversion H as [Hf]. clear H. cbn [tl].
    set (dir := fold_left traverse_step (removelast (components rest))
                  (root_handle root)) in *.
    assert (Hdir : handle_in root dir)
      by (apply fold_traverse_in, handle_in_root).
    unfold find_child in Hf.
    destruct (find (fun entry => strcmp_eq (last (components rest) []) (name entry))
                   (children (self dir))) as [e|] eqn:Hfind; [|discriminate].
    cbn [option_map] in Hf. inversion Hf; subst h. clear Hf.
    apply find_some in Hfind. destruct Hfind as [Hin Hname].
    assert (Hh : handle_in root (child_handle dir e))
      by (apply handle_in_child; assumption).
    split; [exact Hh|]. split; [apply handle_in_tree; exact Hh|].
    split; [intros E; contradiction|]. intros _.
    change (parent_of (child_handle dir e)) with (mk_handle (self dir) (ancestors dir)).
    destruct dir as [ds da]. cbn [self ancestors child_handle] in *.
    repeat split; try assumption.
    unfold strcmp_eq in Hname. apply bytes_eqb_eq in Hname.
    rewrite <- Hname. apply c_str_fixed.
    intros Hx. apply Hnul. right.
    apply (components_bytes rest (last (components rest) []) x00);
      [apply last_in, components_nonnil | exact Hx].
Qed.

Lemma resolved_handle_is_in_tree_witness :
  handle_in sample_root sample_hc /\ in_tree (self sample_hc) sample_root /\
  (c_str (bytes_of "/A/c"%string) = [slash] -> sample_hc = root_handle sample_root) /\
  (c_str (bytes_of "/A/c"%string) <> [slash] ->
   handle_in sample_root (parent_of sample_hc) /\
   In (self sample_hc) (children (self (parent_of sample_hc))) /\
   sample_hc = child_handle (parent_of sample_hc) (self sample_hc) /\
   c_str (name (self sample_hc))
   = last (components (tl (c_str (bytes_of "/A/c"%string)))) []).
Proof.
  apply (resolved_handle_is_in_tree sample_root (bytes_of "/A/c"%string) sample_hc).
  vm_compute. reflexivity.
Defined.

(** ** Paths whose directories exist *)

Lemma find_ext {A} (f g : A -> bool) (l : list A) :
  (forall x, f x = g x) -> find f l = find g l.
Proof.
  intros H. induction l as [|x l IH]; [reflexivity|].
  cbn [find]. rewrite H, IH. reflexivity.
Qed.

Lemma plain_component_spec (w : list byte) :
  plain_component w = true ->
  w <> [] /\ ~ In slash w /\ ~ In x00 w.
Proof.
  unfold plain_component. intros H. apply andb_true_iff in H.
  destruct H as [Hne Hall]. rewrite forallb_forall in Hall.
  split; [destruct w; [discriminate Hne | discriminate]|].
  split; intros Hin; apply Hall in Hin; apply andb_true_iff in Hin;
    destruct Hin as [H1 H2]; [discriminate H1 | discriminate H2].
Qed.

Lemma components_slash_free (w : list byte) :
  ~ In slash w -> components w = [w].
Proof.
  induction w as [|c w IH]; intros Hno; [reflexivity|].
  cbn [components]. destruct (Byte.eqb c slash) eqn:E.
  - apply Byte.byte_dec_bl in E. subst c. contradiction Hno. left. reflexivity.
  - rewrite IH; [reflexivity|]. intros H. apply Hno. right. exact H.
Qed.

Lemma components_app_slash (w s : list byte) :
  ~ In slash w -> components (w ++ slash :: s) = w :: components s.
Proof.
  induction w as [|c w IH]; intros Hno.
  - cbn [app components]. change (Byte.eqb slash slash) with true. reflexivity.
  - cbn [app components]. destruct (Byte.eqb c slash) eqn:E.
    + apply Byte.byte_dec_bl in E. subst c. contradiction Hno. left. reflexivity.
    + rewrite IH; [reflexivity|]. intros H. apply Hno. right. exact H.
Qed.

(** Splitting undoes joining. *)
Lemma components_join (comps : list (list byte)) :
  comps <> [] -> Forall (fun w => ~ In slash w) comps ->
  components (join_path comps) = comps.
Proof.
  induction comps as [|w ws IH]; intros Hne Hall; [contradiction|].
  inversion Hall as [|? ? Hw Hws]; subst.
  destruct ws as [|w1 ws].
  - cbn [join_path]. apply components_slash_free. exact Hw.
  - change (join_path (w :: w1 :: ws)) with (w ++ slash :: join_path (w1 :: ws)).
    rewrite components_app_slash by exact Hw.
    rewrite IH by (discriminate || exact Hws). reflexivity.
Qed.

Lemma join_path_bytes (comps : list (list byte)) (c : byte) :
  In c (join_path comps) -> c = slash \/ exists w, In w comps /\ In c w.
Proof.
  induction comps as [|w ws IH]; intros H; [destruct H|].
  destruct ws as [|w1 ws].
  - right. exists w. split; [left; reflexivity | exact H].
  - change (join_path (w :: w1 :: ws)) with (w ++ slash :: join_path (w1 :: ws)) in H.
    apply in_app_or in H. destruct H as [H|[H|H]].
    + right. exists w. split; [left; reflexivity | exact H].
    + left. symmetry. exact H.
    + destruct (IH H) as [Hs|[w' [Hw' Hc]]]; [left; exact Hs|].
      right. exists w'. split; [right; exact Hw' | exact Hc].
Qed.

Lemma resolve_strict_fold (comps : list (list byte)) :
  forall dir d,
    resolve_strict dir comps = Some d ->
    fold_left traverse_step comps dir = d.
Proof.
  induction comps as [|w ws IH]; intros dir d H.
  - inversion H. reflexivity.
  - cbn [resolve_strict fold_left] in *. unfold traverse_step.
    unfold find_child in *.
    rewrite (find_ext _ _ _ (component_matches_eqb w)).
    destruct (find (fun e => bytes_eqb w (c_str (name e))) (children (self dir)))
      as [e|]; cbn [option_map] in *; [|discriminate].
    apply IH. exact H.
Qed.

Lemma resolve_strict_app (pre : list (list byte)) :
  forall dir post,
    resolve_strict dir (pre ++ post)
    = match resolve_strict dir pre with
      | Some d => resolve_strict d post
      | None => None
      end.
Proof.
  induction pre as [|w ws IH]; intros dir post; [reflexivity|].
  cbn [app resolve_strict].
  destruct (find_child (fun e => bytes_eqb w (c_str (name e))) dir) as [h|];
    [apply IH | reflexivity].
Qed.

(** For a path "/n1/.../nk" of plain components whose directories
    n1 ... n(k-1) exist, each found as the first child of that name,
    [nitro_traverse_path] is strict resolution: it returns the first child
    of the last directory named nk, and nothing when there is none. *)
Theorem resolves_like_strict root (comps : list (list byte)) :
  comps <> [] ->
  Forall (fun w => plain_component w = true) comps ->
  resolve_strict (root_handle root) (removelast comps) <> None ->
  nitro_traverse_path root (slash :: join_path comps)
  = Ok (resolve_strict (root_handle root) comps).
Proof.
  intros Hne Hplain Hdirs.
  assert (Hslash : Forall (fun w => ~ In slash w) comps).
  { eapply Forall_impl; [|exact Hplain]. intros w Hw.
    apply plain_component_spec in Hw. tauto. }
  assert (Hnul : ~ In x00 (slash :: join_path comps)).
  { intros [H|H]; [discriminate H|].
    apply join_path_bytes in H. destruct H as [H|[w [Hw Hc]]]; [discriminate H|].
    rewrite Forall_forall in Hplain. apply Hplain in Hw.
    apply plain_component_spec in Hw. tauto. }
  assert (Hjoin : join_path comps <> []).
  { destruct comps as [|w ws]; [contradiction|].
    inversion Hplain as [|? ? Hw _]; subst.
    apply plain_component_spec in Hw. destruct Hw as [Hw _].
    destruct ws; cbn [join_path]; [exact Hw|].
    destruct w; [contradiction | discriminate]. }
  unfold nitro_traverse_path. rewrite (c_str_fixed _ Hnul).
  destruct (bytes_eqb (slash :: join_path comps) [slash]) eqn:E.
  { apply bytes_eqb_eq in E. inversion E. contradiction. }
  rewrite components_join by assumption.
  destruct (resolve_strict (root_handle root) (removelast comps)) as [d|] eqn:Hd;
    [|contradiction].
  rewrite (resolve_strict_fold _ _ _ Hd).
  replace (resolve_strict (root_handle root) comps)
    with (resolve_strict (root_handle root) (removelast comps ++ [last comps []]))
    by (rewrite <- (app_removelast_last [] Hne); reflexivity).
  rewrite resolve_strict_app, Hd. cbn [resolve_strict].
  f_equal. unfold find_child.
  assert (Hlast : ~ In x00 (last comps [])).
  { intros Hx. rewrite Forall_forall in Hplain.
    pose proof (Hplain _ (last_in comps [] Hne)) as Hw.
    apply plain_component_spec in Hw. tauto. }
  rewrite (find_ext (fun entry => strcmp_eq (last comps []) (name entry))
                    (fun e => bytes_eqb (last comps []) (c_str (name e)))).
  - destruct (find _ (children (self d))); reflexivity.
  - intros x. unfold strcmp_eq. rewrite (c_str_fixed _ Hlast). reflexivity.
Qed.

Lemma resolves_like_strict_witness :
  nitro_traverse_path sample_root
    (slash :: join_path [bytes_of "A"%string; bytes_of "c"%string])
  = Ok (resolve_strict (root_handle sample_root)
          [bytes_of "A"%string; bytes_of "c"%string]).
Proof.
  apply (resolves_like_strict sample_root
           [bytes_of "A"%string; bytes_of "c"%string]).
  - discriminate.
  - repeat constructor.
  - vm_compute. discriminate.
Defined.

(** ** A trailing separator *)

Lemma components_split (a b : list byte) :
  components (a ++ slash :: b) = components a ++ components b.
Proof.
  induction a as [|c a IH].
  - cbn [app components]. change (Byte.eqb slash slash) with true. reflexivity.
  - cbn [app components]. rewrite IH.
    pose proof (components_nonnil a) as Hn.
    destruct (Byte.eqb c slash); [reflexivity|].
    destruct (components a) as [|w ws]; [contradiction | reflexivity].
Qed.

Lemma components_last_slash (s : list byte) :
  last (components (s ++ [slash])) [] = [].
Proof.
  rewrite components_split. cbn [components]. apply last_last.
Qed.

Lemma fold_traverse_nonempty (comps : list (list byte)) :
  forall dir,
    names_nonempty (self dir) = true ->
    names_nonempty (self (fold_left traverse_step comps dir)) = true.
Proof.
  induction comps as [|w ws IH]; intros dir Hd; [exact Hd|].
  cbn [fold_left]. apply IH. apply traverse_step_nonempty. exact Hd.
Qed.

(** In a tree without empty names, a path that ends in a separator, other
    than "/" itself, resolves to nothing, also when the path before the
    separator names a directory. *)
Theorem trailing_slash_finds_nothing root path (p : list byte) :
  names_nonempty root = true ->
  c_str path = p ++ [slash] ->
  p <> [] ->
  nitro_traverse_path root path = Ok None.
Proof.
  intros Hroot Hp Hne. unfold nitro_traverse_path. rewrite Hp.
  destruct p as [|c0 rest]; [contradiction|].
  cbn [app].
  destruct (bytes_eqb (c0 :: rest ++ [slash]) [slash]) eqn:E.
  { apply bytes_eqb_eq in E. inversion E as [[H0 H1]].
    destruct rest; discriminate H1. }
  rewrite components_last_slash.
  set (dir := fold_left traverse_step (removelast (components (rest ++ [slash])))
                (root_handle root)).
  assert (Hdir : names_nonempty (self dir) = true)
    by (apply fold_traverse_nonempty; exact Hroot).
  unfold find_child.
  destruct (find (fun entry => strcmp_eq [] (name entry)) (children (self dir)))
    as [e|] eqn:Hf; [|reflexivity].
  apply find_some in Hf. destruct Hf as [Hin Hm].
  destruct (names_nonempty_child _ _ Hdir Hin) as [Hname _].
  unfold strcmp_eq in Hm. cbn [c_str] in Hm.
  destruct (c_str (name e)); [contradiction | discriminate Hm].
Qed.

Lemma trailing_slash_finds_nothing_witness :
  nitro_traverse_path sample_root (bytes_of "/A/"%string) = Ok None.
Proof.
  apply (trailing_slash_finds_nothing sample_root (bytes_of "/A/"%string)
           (bytes_of "/A"%string)).
  - vm_compute. reflexivity.
  - vm_compute. reflexivity.
  - discriminate.
Defined.

(** ** The build and the finite tree in the tables *)

Lemma entries_count_cons (c : nitrofs_entry_t) (cs : list nitrofs_entry_t) :
  entries_count (c :: cs) = (S (entries_count (children c)) + entries_count cs)%nat.
Proof.
  unfold entries_count. destruct c. reflexivity.
Qed.

Lemma entries_count_nil : entries_count [] = 0%nat.
Proof. reflexivity. Qed.

Lemma filled_nil (dir : nitrofs_entry_t) :
  0 <= size dir < uint32_max -> 0 <= links dir < uint32_max ->
  filled dir [] = dir.
Proof.
  intros Hs Hl. unfold filled, count_dirs. cbn [sum_sizes fold_right filter length Z.of_nat].
  rewrite !Z.add_0_r, !Z.mod_small by assumption.
  rewrite app_nil_r. destruct dir; reflexivity.
Qed.

Lemma filled_cons (dir next : nitrofs_entry_t) (cs : list nitrofs_entry_t) :
  filled (append_child
            (add_stats dir (if is_dir next then 1 else 0) (record_size next))
            next) cs
  = filled dir (next :: cs).
Proof.
  unfold filled, append_child, add_stats.
  cbn [type size links id name children].
  rewrite count_dirs_cons. cbn [sum_sizes fold_right].
  rewrite !Zplus_mod_idemp_l, <- app_assoc, !Z.add_assoc. reflexivity.
Qed.

Lemma filled_range (dir : nitrofs_entry_t) (cs : list nitrofs_entry_t) :
  0 <= size (filled dir cs) < uint32_max /\
  0 <= links (filled dir cs) < uint32_max.
Proof.
  unfold filled. cbn [size links].
  split; apply Z.mod_pos_bound; reflexivity.
Qed.

Section Decoding.

Variable malloc_ok : nat -> bool.
Variable g : nds_t.

(** A run of the loop that ends well has decoded a finite tree, and has
    called [malloc] once for each of its entries. *)
Lemma build_from_decodes (fuel : nat) :
  forall k p nid dir r k',
    nitro_build_subdir_from malloc_ok g fuel k p nid dir = Ok (r, k') ->
    0 <= size dir < uint32_max ->
    0 <= links dir < uint32_max ->
    exists cs,
      decodes g p nid cs /\ r = filled dir cs /\
      k' = (k + entries_count cs)%nat.
Proof.
  induction fuel as [|fuel IH]; intros k p nid dir r k' H Hsize Hlinks;
    simpl in H; [discriminate|].
  destruct (load8 (nds_mapping g) p) as [b|] eqn:Hb; [|discriminate].
  destruct (b =? 0) eqn:Hz.
  - apply Z.eqb_eq in Hz. subst b. inversion H; subst.
    exists []. split; [apply decodes_end; exact Hb|].
    split; [symmetry; apply filled_nil; assumption|].
    rewrite entries_count_nil. lia.
  - apply Z.eqb_neq in Hz.
    destruct (malloc_ok k); simpl in H; [|discriminate].
    destruct (load_bytes (nds_mapping g) (p + 1) (Z.land b 127)) as [nm|] eqn:Hnm;
      [|discriminate].
    pose proof (load_bytes_some _ _ _ _ Hnm) as (_ & _ & _ & Hlen).
    destruct (Z.land b 128 =? 0) eqn:Hd; simpl in H.
    + apply Z.eqb_eq in Hd.
      destruct (load_fat (nds_mapping g) (fat_offset g + nid * 8)) as [fe|] eqn:Hfat;
        [|discriminate].
      set (f := nitro_init_file (new_entry nm) fe nid) in *.
      replace (add_stats dir 0 (Z.land b 127 + 1))
        with (add_stats dir (if is_dir f then 1 else 0) (record_size f)) in H
        by (unfold record_size, f, nitro_init_file, new_entry, is_dir, is_file;
            cbn [type name negb]; f_equal; lia).
      apply IH in H;
        [|unfold append_child, add_stats; cbn [size links];
          apply Z.mod_pos_bound; reflexivity ..].
      destruct H as (cs & Hdec & Hr & Hk).
      exists (f :: cs). split; [|split].
      * eapply decodes_file; eassumption.
      * rewrite Hr. apply filled_cons.
      * subst k'. rewrite entries_count_cons. unfold f.
        cbn [nitro_init_file children]. rewrite entries_count_nil. lia.
    + apply Z.eqb_neq in Hd.
      destruct (load16 (nds_mapping g) (p + Z.land b 127 + 1)) as [id0|] eqn:Hid;
        [|discriminate].
      destruct (load_fnt_main (nds_mapping g)
                  (fnt_offset g + Z.land id0 NITRO_DIRMASK * 8)) as [entry|] eqn:Hmain;
        [|discriminate].
      destruct (nitro_build_subdir_from malloc_ok g fuel (S k)
                  (fnt_offset g + offset entry) (next_id entry)
                  (nitro_init_dir (new_entry nm) id0))
        as [[next' k1]| | |] eqn:Hrec; try discriminate.
      apply IH in Hrec; [|cbn [nitro_init_dir size links]; unfold uint32_max; lia ..].
      destruct Hrec as (sub & Hsub & Hnext & Hk1).
      assert (Hnext' : next' = mk_entry NITRO_DIR_TYPE (sum_sizes sub mod uint32_max)
                                ((2 + count_dirs sub) mod uint32_max) id0 nm sub)
        by (rewrite Hnext; reflexivity).
      replace (add_stats dir 1 (Z.land b 127 + 3))
        with (add_stats dir (if is_dir next' then 1 else 0) (record_size next')) in H
        by (rewrite Hnext'; unfold record_size, is_dir, is_file;
            cbn [type name negb]; f_equal; lia).
      apply IH in H;
        [|unfold append_child, add_stats; cbn [size links];
          apply Z.mod_pos_bound; reflexivity ..].
      destruct H as (cs & Hdec & Hr & Hk).
      exists (next' :: cs). split; [|split].
      * rewrite Hnext'. eapply decodes_dir; eassumption.
      * rewrite Hr. apply filled_cons.
      * subst k' k1. rewrite Hnext', entries_count_cons.
        cbn [children]. lia.
Qed.

End Decoding.

(** ** Unmounting *)

Lemma entry_rect_children (P : nitrofs_entry_t -> Prop) :
  (forall e, Forall P (children e) -> P e) -> forall e, P e.
Proof.
  intros H. fix IH 1. intros [t sz l i n cs]. apply H. cbn [children].
  induction cs as [|c cs IHcs]; constructor; [apply IH | exact IHcs].
Qed.

Lemma destroy_tree_length (e : nitrofs_entry_t) :
  length (nitro_destroy_tree e) = entry_count e.
Proof.
  induction e as [e IH] using entry_rect_children.
  destruct e as [t sz l i n cs]. cbn [nitro_destroy_tree entry_count children] in *.
  rewrite length_app. cbn [length]. rewrite Nat.add_1_r. f_equal.
  induction cs as [|c cs IHcs]; [reflexivity|].
  inversion IH as [|? ? Hc Hcs]; subst.
  cbn [flat_map map list_sum fold_right]. rewrite length_app, Hc.
  f_equal. apply IHcs. exact Hcs.
Qed.

Lemma destroy_tree_in (e : nitrofs_entry_t) :
  forall d, In d (nitro_destroy_tree e) <-> in_tree d e.
Proof.
  induction e as [e IH] using entry_rect_children. intros d.
  destruct e as [t sz l i n cs]. cbn [nitro_destroy_tree children] in *.
  rewrite in_app_iff, in_flat_map. rewrite Forall_forall in IH. split.
  - intros [[c [Hc Hd]]|[Hd|[]]].
    + apply in_tree_child with (c := c); [exact Hc | apply IH; assumption].
    + subst d. apply in_tree_here.
  - intros H. inversion H as [|c e0 Hc Hd]; subst.
    + right. left. reflexivity.
    + left. exists c. cbn [children] in Hc. split; [exact Hc | apply IH; assumption].
Qed.

(** After a successful build, [nitro_destroy] calls [free] as many times
    as the build has called [malloc], the root's block included, and on
    the entries of the tree, each of them: nothing is left allocated. *)
Theorem destroy_frees_what_build_allocated malloc_ok g fuel entry root (k : nat) :
  nitro_build_subdir malloc_ok g fuel 1
    (nitro_init_dir (new_entry []) NITRO_ROOT) entry = Ok (root, k) ->
  length (nitro_destroy root) = k /\
  (forall d, In d (nitro_destroy root) <-> in_tree d root).
Proof.
  unfold nitro_build_subdir, nitro_destroy. intros H.
  apply build_from_decodes in H;
    [|cbn [nitro_init_dir size links]; unfold uint32_max; lia ..].
  destruct H as (cs & _ & Hr & Hk).
  split; [|apply destroy_tree_in].
  rewrite destroy_tree_length, Hr, Hk. reflexivity.
Qed.

Lemma destroy_frees_what_build_allocated_witness :
  length (nitro_destroy sample_root) = 5%nat /\
  (forall d, In d (nitro_destroy sample_root) <-> in_tree d sample_root).
Proof.
  apply (destroy_frees_what_build_allocated malloc_always sample_nds 100
           (mk_fnt_main 16 256 2) sample_root 5).
  vm_compute. reflexivity.
Defined.

(** ** Fields of a mounted tree *)

Lemma mount_decodes malloc_ok fuel image g root :
  nitro_mount malloc_ok fuel image = Ok (g, root) ->
  exists entry cs,
    load_fnt_main (nds_mapping g) (fnt_offset g) = Some entry /\
    decodes g (fnt_offset g + offset entry) (next_id entry) cs /\
    root = filled (nitro_init_dir (new_entry []) NITRO_ROOT) cs.
Proof.
  unfold nitro_mount, nitro_build_tree, nitro_build_subdir.
  destruct (nds_open image) as [g0|]; [|discriminate].
  destruct (negb (malloc_ok 0%nat)); [discriminate|].
  destruct (load_fnt_main (nds_mapping g0) (fnt_offset g0)) as [entry|] eqn:Hmain;
    [|discriminate].
  destruct (nitro_build_subdir_from malloc_ok g0 fuel 1
              (fnt_offset g0 + offset entry) (next_id entry)
              (nitro_init_dir (new_entry []) NITRO_ROOT))
    as [[r k1]| | |] eqn:Hrec; try discriminate.
  intros H. inversion H; subst.
  apply build_from_decodes in Hrec;
    [|cbn [nitro_init_dir size links]; unfold uint32_max; lia ..].
  destruct Hrec as (cs & Hdec & Hr & _).
  exists entry, cs. repeat split; assumption.
Qed.

Lemma decodes_fields_fit g p nid cs :
  decodes g p nid cs ->
  0 <= nid < uint16_max ->
  forall c d, In c cs -> in_tree d c -> fields_fit d.
Proof.
  induction 1 as [p nid Hb
                 |p nid b nm fe rest Hb Hnz Hty Hnm Hfat Hrest IH
                 |p nid b nm id0 entry sub rest Hb Hnz Hty Hnm Hid Hmain
                    Hsub IHsub Hrest IHrest];
    intros Hnid c d Hc Hd.
  - destruct Hc.
  - destruct Hc as [Hc|Hc].
    + subst c. inversion Hd as [|c' e' Hin _]; subst.
      * unfold fields_fit. cbn [nitro_init_file id size links].
        repeat split; try lia; try (unfold uint32_max; lia);
          apply Z.mod_pos_bound; reflexivity.
      * destruct Hin.
    + apply (IH (Z.mod_pos_bound (nid + 1) uint16_max eq_refl) c d Hc Hd).
  - destruct Hc as [Hc|Hc].
    + subst c. inversion Hd as [|c' e' Hin Hd']; subst.
      * unfold fields_fit. cbn [id size links].
        pose proof (load16_range _ _ _ Hid).
        repeat split; try lia; apply Z.mod_pos_bound; reflexivity.
      * cbn [children] in Hin.
        apply (IHsub (proj2 (load_fnt_main_range _ _ _ Hmain)) c' d Hin Hd').
    + apply (IHrest Hnid c d Hc Hd).
Qed.

Lemma mounted_fields_fit malloc_ok fuel image g root d :
  nitro_mount malloc_ok fuel image = Ok (g, root) ->
  in_tree d root -> fields_fit d.
Proof.
  intros Hm Hd. apply mount_decodes in Hm.
  destruct Hm as (entry & cs & Hmain & Hdec & Hr).
  inversion Hd as [|c e Hin Hd']; subst.
  - unfold fields_fit. cbn [filled nitro_init_dir id size links].
    repeat split; try (apply Z.mod_pos_bound; reflexivity);
      unfold NITRO_ROOT, uint16_max; lia.
  - cbn [filled children nitro_init_dir app] in Hin.
    apply (decodes_fields_fit _ _ _ _ Hdec
             (proj2 (load_fnt_main_range _ _ _ Hmain)) c d Hin Hd').
Qed.

Lemma handle_in_parent root (h : handle) :
  handle_in root h -> handle_in root (parent_of h).
Proof.
  intros H. destruct H as [|d c Hd Hin]; [apply handle_in_root|].
  unfold parent_of, child_handle. cbn [ancestors].
  destruct d; exact Hd.
Qed.

Lemma lor_below (a b n : Z) :
  0 <= n -> 0 <= a < 2 ^ n -> 0 <= b < 2 ^ n -> 0 <= Z.lor a b < 2 ^ n.
Proof.
  intros Hn Ha Hb.
  assert (E : Z.lor a b = Z.lor a b mod 2 ^ n).
  { rewrite <- Z.land_ones by exact Hn. rewrite Z.land_lor_distr_l.
    rewrite !Z.land_ones by exact Hn. rewrite !Z.mod_small by assumption.
    reflexivity. }
  rewrite E. apply Z.mod_pos_bound. apply Z.pow_pos_nonneg; lia.
Qed.

(** For every handle into a mounted tree the [st_ino] that
    [nitro_fill_stat] gives is (parent's ID << 8) | own ID with nothing
    cut off, and lies below 2^24: entry IDs are 16-bit values. *)
Theorem st_ino_fits_24_bits malloc_ok fuel image g root (h : handle) :
  nitro_mount malloc_ok fuel image = Ok (g, root) ->
  handle_in root h ->
  st_ino (nitro_fill_stat h)
  = Z.lor (Z.shiftl (id (self (parent_of h))) 8) (id (self h)) /\
  0 <= st_ino (nitro_fill_stat h) < 2 ^ 24.
Proof.
  intros Hm Hh.
  destruct (mounted_fields_fit _ _ _ _ _ _ Hm (handle_in_tree _ _ Hh))
    as (Hid & _ & _).
  destruct (mounted_fields_fit _ _ _ _ _ _ Hm
              (handle_in_tree _ _ (handle_in_parent _ _ Hh))) as (Hpid & _ & _).
  unfold nitro_fill_stat. cbn [st_ino]. unfold uint16_max, uint32_max in *.
  assert (Hsh : 0 <= Z.shiftl (id (self (parent_of h))) 8 < 2 ^ 24).
  { rewrite Z.shiftl_mul_pow2 by lia. lia. }
  rewrite (Z.mod_small (Z.shiftl _ 8)) by lia.
  split; [reflexivity|].
  apply lor_below; lia.
Qed.

Lemma st_ino_fits_24_bits_witness :
  st_ino (nitro_fill_stat sample_hc)
  = Z.lor (Z.shiftl (id (self (parent_of sample_hc))) 8) (id (self sample_hc)) /\
  0 <= st_ino (nitro_fill_stat sample_hc) < 2 ^ 24.
Proof.
  apply (st_ino_fits_24_bits malloc_always 100 sample_image sample_nds
           sample_root sample_hc).
  - vm_compute. reflexivity.
  - apply handle_in_child; [apply handle_in_child; [apply handle_in_root|]|].
    + right. left. reflexivity.
    + left. reflexivity.
Defined.

(** Two entries whose own IDs are below 256 have the same [st_ino] only
    if they have the same ID and parents of the same ID. *)
Theorem st_ino_separates_small_ids (h1 h2 : handle) :
  0 <= id (self h1) < 256 -> 0 <= id (self h2) < 256 ->
  0 <= id (self (parent_of h1)) < uint16_max ->
  0 <= id (self (parent_of h2)) < uint16_max ->
  st_ino (nitro_fill_stat h1) = st_ino (nitro_fill_stat h2) ->
  id (self h1) = id (self h2) /\
  id (self (parent_of h1)) = id (self (parent_of h2)).
Proof.
  unfold nitro_fill_stat. cbn [st_ino]. unfold uint16_max, uint32_max.
  intros H1 H2 P1 P2 E.
  rewrite !Z.mod_small in E by (rewrite Z.shiftl_mul_pow2 by lia; lia).
  assert (Hlow : forall p i, 0 <= i < 256 ->
                             Z.land (Z.lor (Z.shiftl p 8) i) (Z.ones 8) = i).
  { intros p i Hi. rewrite Z.land_lor_distr_l, !Z.land_ones by lia.
    rewrite Z.shiftl_mul_pow2 by lia. rewrite Z.mod_mul by lia.
    rewrite Z.mod_small by lia. reflexivity. }
  assert (Hhigh : forall p i, 0 <= i < 256 ->
                              Z.shiftr (Z.lor (Z.shiftl p 8) i) 8 = p).
  { intros p i Hi. rewrite Z.shiftr_lor, Z.shiftr_shiftl_l by lia.
    rewrite Z.sub_diag, Z.shiftl_0_r.
    rewrite (Z.shiftr_div_pow2 i) by lia. rewrite Z.div_small by lia.
    apply Z.lor_0_r. }
  split.
  - rewrite <- (Hlow (id (self (parent_of h1))) (id (self h1)) H1).
    rewrite <- (Hlow (id (self (parent_of h2))) (id (self h2)) H2).
    rewrite E. reflexivity.
  - rewrite <- (Hhigh (id (self (parent_of h1))) (id (self h1)) H1).
    rewrite <- (Hhigh (id (self (parent_of h2))) (id (self h2)) H2).
    rewrite E. reflexivity.
Qed.

Lemma twin_mount :
  nitro_mount malloc_always 100 twin_image = Ok (twin_nds, twin_root) /\
  nitro_traverse_path twin_root (bytes_of "/A/c"%string) = Ok (Some twin_hAc) /\
  nitro_traverse_path twin_root (bytes_of "/D/c"%string) = Ok (Some twin_hDc).
Proof. repeat split; vm_compute; reflexivity. Qed.

Lemma st_ino_separates_small_ids_witness :
  twin_hAc <> twin_hDc /\
  st_ino (nitro_fill_stat twin_hAc) = st_ino (nitro_fill_stat twin_hDc) /\
  id (self twin_hAc) = id (self twin_hDc) /\
  id (self (parent_of twin_hAc)) = id (self (parent_of twin_hDc)).
Proof.
  split; [discriminate|]. split; [vm_compute; reflexivity|].
  apply (st_ino_separates_small_ids twin_hAc twin_hDc).
  - vm_compute. split; [discriminate | reflexivity].
  - vm_compute. split; [discriminate | reflexivity].
  - vm_compute. split; [discriminate | reflexivity].
  - vm_compute. split; [discriminate | reflexivity].
  - vm_compute. reflexivity.
Defined.

(** ** Link counts *)

Lemma count_dirs_below_sum (cs : list nitrofs_entry_t) :
  3 * count_dirs cs <= sum_sizes cs.
Proof.
  induction cs as [|c cs IH].
  - unfold count_dirs. cbn. lia.
  - rewrite count_dirs_cons. cbn [sum_sizes fold_right].
    fold (sum_sizes cs). unfold is_dir, is_file, record_size.
    pose proof (sum_sizes_nonneg cs).
    destruct (type c); cbn [negb]; lia.
Qed.

(** After a successful build a file has link count 2 and no children, and
    a directory has link count 2 plus the number of its subdirectories,
    files not counted; the count is kept in a [uint32_t] and is exact for
    every image of at most 4 GiB. *)
Theorem link_counts malloc_ok fuel image g root d :
  nitro_mount malloc_ok fuel image = Ok (g, root) ->
  in_tree d root ->
  (type d = NITRO_FILE_TYPE -> links d = 2 /\ children d = []) /\
  (type d = NITRO_DIR_TYPE ->
   links d = (2 + count_dirs (children d)) mod uint32_max /\
   (Z.of_nat (length image) <= uint32_max ->
    links d = 2 + count_dirs (children d))).
Proof.
  intros Hm Hin.
  apply mount_built in Hm. destruct Hm as (Hmap & Hb & _).
  pose proof (built_in_tree _ _ _ Hin Hb) as Hd.
  split.
  - intros Ht. destruct (built_file_inv _ _ Hd Ht) as (Hc & Hl & _).
    split; assumption.
  - intros Ht.
    destruct (built_dir_inv _ _ Hd Ht) as (entry & _ & Hst & _ & _ & Hl & Hend).
    split; [exact Hl|].
    intros Hlen. rewrite Hl. apply Z.mod_small.
    pose proof (stream_at_pos _ _ _ Hst).
    pose proof (count_dirs_below_sum (children d)).
    assert (0 <= count_dirs (children d)) by (unfold count_dirs; lia).
    rewrite Hmap in Hend. unfold uint32_max in *. lia.
Qed.

Lemma link_counts_witness :
  (type sample_root = NITRO_FILE_TYPE ->
   links sample_root = 2 /\ children sample_root = []) /\
  (type sample_root = NITRO_DIR_TYPE ->
   links sample_root = (2 + count_dirs (children sample_root)) mod uint32_max /\
   (Z.of_nat (length sample_image) <= uint32_max ->
    links sample_root = 2 + count_dirs (children sample_root))).
Proof.
  apply (link_counts malloc_always 100 sample_image sample_nds sample_root
           sample_root).
  - vm_compute. reflexivity.
  - apply in_tree_here.
Defined.

(** ** Attributes of the root and of files *)

(** For every image that mounts, "/" resolves to the root, which is its
    own parent; [nitro_getattr] on "/" reports a directory with [st_ino]
    0xF0F000, and [nitro_opendir] on "/" succeeds with the root's
    handle. *)
Theorem root_attributes malloc_ok fuel image g root :
  nitro_mount malloc_ok fuel image = Ok (g, root) ->
  nitro_traverse_path root [slash] = Ok (Some (root_handle root)) /\
  parent_of (root_handle root) = root_handle root /\
  nitro_opendir root [slash] = Ok (0, Some (root_handle root)) /\
  exists st,
    nitro_getattr root [slash] = Ok (0, Some st) /\
    st_mode st = NITRO_DIR_TYPE /\ st_ino st = 0xF0F000 /\
    st_nlink st = links root /\ st_size st = size root.
Proof.
  intros Hm. apply mount_decodes in Hm.
  destruct Hm as (entry & cs & _ & _ & Hr).
  assert (Ht : type root = NITRO_DIR_TYPE) by (rewrite Hr; reflexivity).
  assert (Hi : id root = NITRO_ROOT) by (rewrite Hr; reflexivity).
  assert (Hp : nitro_traverse_path root [slash] = Ok (Some (root_handle root)))
    by reflexivity.
  split; [exact Hp|]. split; [reflexivity|]. split.
  - unfold nitro_opendir. rewrite Hp. cbn [root_handle self]. rewrite Ht.
    reflexivity.
  - exists (nitro_fill_stat (root_handle root)).
    unfold nitro_getattr. rewrite Hp.
    unfold nitro_fill_stat, parent_of, root_handle.
    cbn [self ancestors st_mode st_ino st_nlink st_size]. rewrite Ht, Hi.
    repeat split; reflexivity.
Qed.

Lemma root_attributes_witness :
  nitro_traverse_path sample_root [slash] = Ok (Some (root_handle sample_root)) /\
  parent_of (root_handle sample_root) = root_handle sample_root /\
  nitro_opendir sample_root [slash] = Ok (0, Some (root_handle sample_root)) /\
  exists st,
    nitro_getattr sample_root [slash] = Ok (0, Some st) /\
    st_mode st = NITRO_DIR_TYPE /\ st_ino st = 0xF0F000 /\
    st_nlink st = links sample_root /\ st_size st = size sample_root.
Proof.
  apply (root_attributes malloc_always 100 sample_image sample_nds sample_root).
  vm_compute. reflexivity.
Defined.

(** For every image that mounts and every path that resolves to a file,
    [nitro_getattr] succeeds and reports a regular file with 2 links
    whose size is end - start, in 32 bits, of the allocation record the
    file's ID indexes, with block count the size rounded up to 4096-byte
    blocks. *)
Theorem file_attributes malloc_ok fuel image g root path (h : handle) :
  nitro_mount malloc_ok fuel image = Ok (g, root) ->
  nitro_traverse_path root path = Ok (Some h) ->
  type (self h) = NITRO_FILE_TYPE ->
  exists st fat_entry,
    nitro_getattr root path = Ok (0, Some st) /\
    st_mode st = NITRO_FILE_TYPE /\ st_nlink st = 2 /\
    load_fat image (fat_offset g + id (self h) * 8) = Some fat_entry /\
    st_size st
    = (end_offset fat_entry - start_offset fat_entry) mod uint32_max /\
    4096 * (st_blocks st - 1) < st_size st <= 4096 * st_blocks st.
Proof.
  intros Hm Hp Ht.
  pose proof (handle_in_tree _ _ (traverse_handle_in _ _ _ Hp)) as Hin.
  apply mount_built in Hm. destruct Hm as (Hmap & Hb & _).
  pose proof (built_in_tree _ _ _ Hin Hb) as Hd.
  destruct (built_file_inv _ _ Hd Ht) as (_ & Hl & fe & Hfe & Hsz).
  exists (nitro_fill_stat h), fe.
  unfold nitro_getattr. rewrite Hp. rewrite Hmap in Hfe.
  unfold nitro_fill_stat. cbn [st_mode st_nlink st_size st_blocks].
  assert (Hrange : 0 <= size (self h) < uint32_max)
    by (rewrite Hsz; apply Z.mod_pos_bound; reflexivity).
  pose proof (Z.mul_div_le (size (self h) + 4096 - 1) 4096 ltac:(lia)).
  pose proof (Z.mul_succ_div_gt (size (self h) + 4096 - 1) 4096 ltac:(lia)).
  repeat split; try assumption; lia.
Qed.

Lemma file_attributes_witness :
  exists st fat_entry,
    nitro_getattr sample_root (bytes_of "/A/c"%string) = Ok (0, Some st) /\
    st_mode st = NITRO_FILE_TYPE /\ st_nlink st = 2 /\
    load_fat sample_image (fat_offset sample_nds + id (self sample_hc) * 8)
    = Some fat_entry /\
    st_size st
    = (end_offset fat_entry - start_offset fat_entry) mod uint32_max /\
    4096 * (st_blocks st - 1) < st_size st <= 4096 * st_blocks st.
Proof.
  apply (file_attributes malloc_always 100 sample_image sample_nds sample_root
           (bytes_of "/A/c"%string) sample_hc).
  - vm_compute. reflexivity.
  - vm_compute. reflexivity.
  - reflexivity.
Defined.

(** ** What a read copies *)

Lemma load_fat_below m a fe :
  load_fat m a = Some fe ->
  0 <= start_offset fe < uint32_max /\ 0 <= end_offset fe < uint32_max.
Proof.
  unfold load_fat. destruct (load_bytes m a 8) as [bs|]; [|discriminate].
  intros H. inversion H; subst. cbn [start_offset end_offset].
  split; apply (le_uint_firstn_range 4).
Qed.

(** For an offset inside the file, [nitro_read] copies
    min(length, size - offset) bytes, never more than were asked for, and
    takes them from the start of the file's data whatever the offset is.
    This is for a request whose end fits [size_t] and a file whose extent
    lies inside the mapping. *)
Theorem read_copies_from_file_start g fh size0 offset0 fat_entry :
  0 <= offset0 < size (self fh) ->
  0 <= size0 ->
  offset0 + size0 < uint64_max ->
  load_fat (nds_mapping g) (fat_offset g + id (self fh) * 8) = Some fat_entry ->
  start_offset fat_entry + size (self fh) <= Z.of_nat (length (nds_mapping g)) ->
  exists data,
    nitro_read g fh size0 offset0
    = Ok (to_int (Z.min size0 (size (self fh) - offset0)), data) /\
    load_bytes (nds_mapping g) (start_offset fat_entry)
      (Z.min size0 (size (self fh) - offset0)) = Some data /\
    Z.of_nat (length data) = Z.min size0 (size (self fh) - offset0) /\
    Z.of_nat (length data) <= size0.
Proof.
  intros Hoff Hsz Hfit Hfat Hext. unfold nitro_read.
  destruct (offset0 <? 0) eqn:Hn; [apply Z.ltb_lt in Hn; lia|].
  destruct (offset0 >=? size (self fh)) eqn:Hge;
    [rewrite Z.geb_leb in Hge; apply Z.leb_le in Hge; lia|].
  rewrite Hfat.
  rewrite (Z.mod_small (offset0 + size0)) by lia.
  pose proof (load_fat_range _ _ _ Hfat) as [Hs _].
  set (n := Z.min size0 (size (self fh) - offset0)).
  assert (Hn1 : (if offset0 + size0 >? size (self fh)
                 then size (self fh) - offset0 else size0) = n).
  { unfold n. destruct (offset0 + size0 >? size (self fh)) eqn:Hgt;
      rewrite Z.gtb_ltb in Hgt;
      [apply Z.ltb_lt in Hgt | apply Z.ltb_ge in Hgt]; lia. }
  rewrite Hn1.
  destruct (load_bytes_in_range (nds_mapping g) (start_offset fat_entry) n)
    as (data & Hd & Hl); try (unfold n; lia).
  rewrite Hd. exists data. repeat split; try assumption. unfold n in *. lia.
Qed.

Lemma read_copies_from_file_start_witness :
  exists data,
    nitro_read sample_nds sample_hB 3 2
    = Ok (to_int (Z.min 3 (size (self sample_hB) - 2)), data) /\
    load_bytes (nds_mapping sample_nds) (start_offset (mk_fat 2176 2181))
      (Z.min 3 (size (self sample_hB) - 2)) = Some data /\
    Z.of_nat (length data) = Z.min 3 (size (self sample_hB) - 2) /\
    Z.of_nat (length data) <= 3.
Proof.
  apply (read_copies_from_file_start sample_nds sample_hB 3 2 (mk_fat 2176 2181)).
  - vm_compute. split; [discriminate | reflexivity].
  - lia.
  - vm_compute. reflexivity.
  - vm_compute. reflexivity.
  - vm_compute. discriminate.
Defined.

(** For a file of a mounted tree whose allocation record has
    start <= end <= image length, reading the whole file from offset 0
    copies exactly the bytes of the image from start to end. *)
Theorem whole_file_read malloc_ok fuel image g root (h : handle) fat_entry :
  nitro_mount malloc_ok fuel image = Ok (g, root) ->
  in_tree (self h) root ->
  type (self h) = NITRO_FILE_TYPE ->
  load_fat image (fat_offset g + id (self h) * 8) = Some fat_entry ->
  start_offset fat_entry <= end_offset fat_entry ->
  end_offset fat_entry <= Z.of_nat (length image) ->
  exists data,
    nitro_read g h (size (self h)) 0
    = Ok (to_int (end_offset fat_entry - start_offset fat_entry), data) /\
    load_bytes image (start_offset fat_entry)
      (end_offset fat_entry - start_offset fat_entry) = Some data /\
    size (self h) = end_offset fat_entry - start_offset fat_entry.
Proof.
  intros Hm Hin Ht Hfat Hle Hend.
  apply mount_built in Hm. destruct Hm as (Hmap & Hb & _).
  pose proof (built_in_tree _ _ _ Hin Hb) as Hd.
  destruct (built_file_inv _ _ Hd Ht) as (_ & _ & fe & Hfe & Hsz).
  rewrite Hmap in Hfe. rewrite Hfat in Hfe. inversion Hfe; subst fe. clear Hfe.
  pose proof (load_fat_below _ _ _ Hfat) as [Hs He].
  rewrite Z.mod_small in Hsz by lia.
  destruct (load_bytes_in_range image (start_offset fat_entry)
              (end_offset fat_entry - start_offset fat_entry))
    as (data & Hdata & Hlen); try lia.
  exists data. split; [|split; [exact Hdata | exact Hsz]].
  unfold nitro_read. rewrite Hmap, Hfat, Hsz.
  set (n := end_offset fat_entry - start_offset fat_entry) in *.
  cbn [Z.ltb Z.compare]. rewrite Z.add_0_l.
  destruct (0 >=? n) eqn:Hz.
  - rewrite Z.geb_leb in Hz. apply Z.leb_le in Hz.
    assert (Hn0 : n = 0) by lia. rewrite Hn0 in *.
    destruct data; [reflexivity | discriminate Hlen].
  - rewrite Z.mod_small by (unfold uint64_max, uint32_max in *; lia).
    replace (n >? n) with false by (symmetry; rewrite Z.gtb_ltb; apply Z.ltb_irrefl).
    rewrite Hdata. reflexivity.
Qed.

Lemma whole_file_read_witness :
  exists data,
    nitro_read sample_nds sample_hB (size (self sample_hB)) 0
    = Ok (to_int (end_offset (mk_fat 2176 2181) - start_offset (mk_fat 2176 2181)),
          data) /\
    load_bytes sample_image (start_offset (mk_fat 2176 2181))
      (end_offset (mk_fat 2176 2181) - start_offset (mk_fat 2176 2181))
    = Some data /\
    size (self sample_hB)
    = end_offset (mk_fat 2176 2181) - start_offset (mk_fat 2176 2181).
Proof.
  apply (whole_file_read malloc_always 100 sample_image sample_nds sample_root
           sample_hB (mk_fat 2176 2181)).
  - vm_compute. reflexivity.
  - apply in_tree_child with (c := sample_B); [left; reflexivity | apply in_tree_here].
  - reflexivity.
  - vm_compute. reflexivity.
  - vm_compute. discriminate.
  - vm_compute. discriminate.
Defined.

(** ** Names *)

Lemma decodes_name_lengths g p nid cs :
  decodes g p nid cs ->
  forall c d, In c cs -> in_tree d c -> (length (name d) <= 127)%nat.
Proof.
  assert (Hland : forall b, Z.land b 127 <= 127).
  { intros b. change 127 with (Z.ones 7) at 1. rewrite Z.land_ones by lia.
    pose proof (Z.mod_pos_bound b (2 ^ 7) ltac:(lia)). lia. }
  induction 1 as [p nid Hb
                 |p nid b nm fe rest Hb Hnz Hty Hnm Hfat Hrest IH
                 |p nid b nm id0 entry sub rest Hb Hnz Hty Hnm Hid Hmain
                    Hsub IHsub Hrest IHrest];
    intros c d Hc Hd.
  - destruct Hc.
  - pose proof (load_bytes_some _ _ _ _ Hnm) as (_ & _ & _ & Hlen).
    pose proof (Hland b).
    destruct Hc as [Hc|Hc]; [|apply (IH c d Hc Hd)].
    subst c. inversion Hd as [|c' e' Hin _]; subst; [|destruct Hin].
    cbn [nitro_init_file new_entry name]. lia.
  - pose proof (load_bytes_some _ _ _ _ Hnm) as (_ & _ & _ & Hlen).
    pose proof (Hland b).
    destruct Hc as [Hc|Hc]; [|apply (IHrest c d Hc Hd)].
    subst c. inversion Hd as [|c' e' Hin Hd']; subst.
    + cbn [name]. lia.
    + cbn [children] in Hin. apply (IHsub c' d Hin Hd').
Qed.

(** In a mounted tree the name of every entry that a directory holds is
    at most 127 bytes long, the length being the low 7 bits of the
    subentry's first byte. *)
Theorem names_fit_7_bits malloc_ok fuel image g root dir c :
  nitro_mount malloc_ok fuel image = Ok (g, root) ->
  in_tree dir root ->
  In c (children dir) ->
  (length (name c) <= 127)%nat.
Proof.
  intros Hm Hdir Hc. apply mount_decodes in Hm.
  destruct Hm as (entry & cs & Hmain & Hdec & Hr).
  assert (Hin : in_tree c root) by (eapply in_tree_step; eassumption).
  inversion Hin as [|c0 e Hin0 Hd']; subst.
  - cbn [filled nitro_init_dir new_entry name length]. lia.
  - cbn [filled children nitro_init_dir app] in Hin0.
    apply (decodes_name_lengths _ _ _ _ Hdec c0 c Hin0 Hd').
Qed.

Lemma names_fit_7_bits_witness : (length (name sample_c) <= 127)%nat.
Proof.
  apply (names_fit_7_bits malloc_always 100 sample_image sample_nds sample_root
           sample_A sample_c).
  - vm_compute. reflexivity.
  - apply in_tree_child with (c := sample_A);
      [right; left; reflexivity | apply in_tree_here].
  - left. reflexivity.
Defined.

(** ** Self-referential directory subentries *)

Section SelfReference.

Variable malloc_ok : nat -> bool.
Variable g : nds_t.

(** A run of the loop that ends well has passed every record of its
    stream. *)
Lemma loop_passes_record p q :
  record_of g p q ->
  forall fuel k nid dir r,
    nitro_build_subdir_from malloc_ok g fuel k p nid dir = Ok r ->
    exists fuel' k' nid' dir' r',
      (fuel' <= fuel)%nat /\
      nitro_build_subdir_from malloc_ok g fuel' k' q nid' dir' = Ok r'.
Proof.
  induction 1 as [p|p b q Hb Hnz Hrec IH]; intros fuel k nid dir r H.
  - exists fuel, k, nid, dir, r. split; [lia | exact H].
  - destruct fuel as [|fuel]; [discriminate|].
    cbn [nitro_build_subdir_from] in H. rewrite Hb in H.
    apply Z.eqb_neq in Hnz. rewrite Hnz in H. cbv zeta in H.
    destruct (negb (malloc_ok k)); [discriminate|].
    destruct (load_bytes (nds_mapping g) (p + 1) (Z.land b 127)) as [nm|];
      [|discriminate].
    destruct (Z.land b 128 =? 0) eqn:Hd; cbn [negb] in H.
    + destruct (load_fat (nds_mapping g) (fat_offset g + nid * 8)) as [fe|];
        [|discriminate].
      replace (p + (Z.land b 127 + 1)) with (p + 0 + (Z.land b 127 + 1)) in H
        by lia.
      destruct (IH _ _ _ _ _ H) as (f' & k' & nid' & dir' & r' & Hle & Hok).
      exists f', k', nid', dir', r'. split; [lia | exact Hok].
    + destruct (load16 (nds_mapping g) (p + Z.land b 127 + 1)) as [id0|];
        [|discriminate].
      destruct (load_fnt_main (nds_mapping g)
                  (fnt_offset g + Z.land id0 NITRO_DIRMASK * 8)) as [entry|];
        [|discriminate].
      destruct (nitro_build_subdir_from malloc_ok g fuel (S k)
                  (fnt_offset g + offset entry) (next_id entry)
                  (nitro_init_dir (new_entry nm) id0))
        as [[next' k1]| | |]; try discriminate.
      destruct (IH _ _ _ _ _ H) as (f' & k' & nid' & dir' & r' & Hle & Hok).
      exists f', k', nid', dir', r'. split; [lia | exact Hok].
Qed.

(** A run that ends well has, for every subdirectory its stream names,
    a run on that subdirectory's stream that ended well before it. *)
Lemma loop_enters_subdirectory p s :
  expands_into g p s ->
  forall fuel k nid dir r,
    nitro_build_subdir_from malloc_ok g fuel k p nid dir = Ok r ->
    exists fuel' k' nid' dir' r',
      (fuel' < fuel)%nat /\
      nitro_build_subdir_from malloc_ok g fuel' k' s nid' dir' = Ok r'.
Proof.
  intros (q & b & id0 & entry & Hrec & Hb & Hnz & Hty & Hid & Hmain & Hs)
         fuel k nid dir r H.
  destruct (loop_passes_record _ _ Hrec _ _ _ _ _ H)
    as (f1 & k1 & nid1 & dir1 & r1 & Hle & Hq).
  destruct f1 as [|f1]; [discriminate|].
  cbn [nitro_build_subdir_from] in Hq. rewrite Hb in Hq.
  apply Z.eqb_neq in Hnz. rewrite Hnz in Hq. cbv zeta in Hq.
  destruct (negb (malloc_ok k1)); [discriminate|].
  destruct (load_bytes (nds_mapping g) (q + 1) (Z.land b 127)) as [nm|];
    [|discriminate].
  apply Z.eqb_neq in Hty. rewrite Hty in Hq. cbn [negb] in Hq.
  rewrite Hid, Hmain in Hq. subst s.
  destruct (nitro_build_subdir_from malloc_ok g f1 (S k1)
              (fnt_offset g + offset entry) (next_id entry)
              (nitro_init_dir (new_entry nm) id0))
    as [r2| | |] eqn:Hsub; try discriminate.
  exists f1, (S k1), (next_id entry), (nitro_init_dir (new_entry nm) id0), r2.
  split; [lia | exact Hsub].
Qed.

Lemma loop_follows_path p t :
  reaches g p t ->
  forall fuel k nid dir r,
    nitro_build_subdir_from malloc_ok g fuel k p nid dir = Ok r ->
    exists fuel' k' nid' dir' r',
      (fuel' <= fuel)%nat /\
      nitro_build_subdir_from malloc_ok g fuel' k' t nid' dir' = Ok r'.
Proof.
  induction 1 as [p|p s t Hexp _ IH]; intros fuel k nid dir r H.
  - exists fuel, k, nid, dir, r. split; [lia | exact H].
  - destruct (loop_enters_subdirectory _ _ Hexp _ _ _ _ _ H)
      as (f1 & k1 & nid1 & dir1 & r1 & Hlt & Hs).
    destruct (IH _ _ _ _ _ Hs) as (f2 & k2 & nid2 & dir2 & r2 & Hle & Ht).
    exists f2, k2, nid2, dir2, r2. split; [lia | exact Ht].
Qed.

(** No run ends well on a directory that comes back to itself. *)
Lemma no_run_on_cycle p s :
  expands_into g p s -> reaches g s p ->
  forall fuel k nid dir r,
    nitro_build_subdir_from malloc_ok g fuel k p nid dir <> Ok r.
Proof.
  intros Hexp Hback fuel.
  induction fuel as [fuel IH] using lt_wf_ind. intros k nid dir r H.
  destruct (loop_enters_subdirectory _ _ Hexp _ _ _ _ _ H)
    as (f1 & k1 & nid1 & dir1 & r1 & Hlt & Hs).
  destruct (loop_follows_path _ _ Hback _ _ _ _ _ Hs)
    as (f2 & k2 & nid2 & dir2 & r2 & Hle & Hp).
  apply (IH f2 ltac:(lia) k2 nid2 dir2 r2). exact Hp.
Qed.

Lemma self_referential_no_tree fuel root :
  self_referential g -> nitro_build_tree malloc_ok g fuel <> Ok root.
Proof.
  intros (entry & p & s & Hmain & Hpath & Hexp & Hback) H.
  unfold nitro_build_tree, nitro_build_subdir in H.
  destruct (negb (malloc_ok 0%nat)); [discriminate|].
  rewrite Hmain in H.
  destruct (nitro_build_subdir_from malloc_ok g fuel 1
              (fnt_offset g + offset entry) (next_id entry)
              (nitro_init_dir (new_entry []) NITRO_ROOT))
    as [r1| | |] eqn:Hrec; try discriminate.
  destruct (loop_follows_path _ _ Hpath _ _ _ _ _ Hrec)
    as (f2 & k2 & nid2 & dir2 & r2 & _ & Hp).
  exact (no_run_on_cycle _ _ Hexp Hback _ _ _ _ _ Hp).
Qed.

End SelfReference.

(** C3 (as the code has it).  For every image whose directory subentries
    are self-referential (an expansion path from the root comes to a
    directory with a subentry, below it, that points back to it), the
    build never returns a tree, whatever the number of subentries it is
    let to visit and whatever the allocator does, and it has no
    CycleDetected or MalformedTree failure: the only failure it reports,
    -1, is a failed allocation of an entry. *)
Theorem self_referential_build_returns_no_tree
    (malloc_ok : nat -> bool) (fuel : nat) (image : list byte) (g : nds_t) :
  nds_open image = Some g ->
  self_referential g ->
  (forall r, nitro_mount malloc_ok fuel image <> Ok r) /\
  (nitro_mount malloc_ok fuel image = Fail -> exists j, malloc_ok j = false).
Proof.
  intros Hopen Hself. split.
  - intros [g' root] H. unfold nitro_mount in H. rewrite Hopen in H.
    destruct (nitro_build_tree malloc_ok g fuel) as [r1| | |] eqn:Hb;
      try discriminate.
    exact (self_referential_no_tree malloc_ok g fuel r1 Hself Hb).
  - unfold nitro_mount, nitro_build_tree, nitro_build_subdir. rewrite Hopen.
    destruct (malloc_ok 0%nat) eqn:H0; cbn [negb];
      [|intros _; exists 0%nat; exact H0].
    destruct (load_fnt_main (nds_mapping g) (fnt_offset g)) as [entry|];
      [|discriminate].
    destruct (nitro_build_subdir_from malloc_ok g fuel 1
                (fnt_offset g + offset entry) (next_id entry)
                (nitro_init_dir (new_entry []) NITRO_ROOT))
      as [[root' k1]| | |] eqn:Hrec; try discriminate.
    intros _. eapply build_from_fail; eassumption.
Qed.

Lemma self_referential_build_returns_no_tree_witness :
  (forall r, nitro_mount malloc_five 100 cyclic_image <> Ok r) /\
  (nitro_mount malloc_five 100 cyclic_image = Fail ->
   exists j, malloc_five j = false).
Proof.
  apply (self_referential_build_returns_no_tree malloc_five 100 cyclic_image
           cyclic_nds).
  - vm_compute. reflexivity.
  - assert (Hexp : expands_into cyclic_nds 0x58 0x58).
    { exists 0x58, 0x81, NITRO_ROOT, (mk_fnt_main 8 0 1).
      repeat split; try reflexivity; try discriminate. apply record_first. }
    exists (mk_fnt_main 8 0 1), 0x58, 0x58.
    split; [reflexivity|]. split; [apply reaches_here|].
    split; [exact Hexp | apply reaches_here].
Defined.
